(** * sagacity: host inventory documents, repository trees and their resolution

    A shallow embedding of [host.go] and of the repository loader/resolver
    (the [Repo] type and its methods), followed by the properties of the
    specification that are checked against them.

    Conventions of the embedding:
    - a Go [map[string]T] is a [gmap string T]; a slice is a [list];
    - a Go pointer [*T] is a [ptr T] (an [option]), [None] being [nil];
    - printing, logging, starting programs, [os.Exit], [log.Fatal] and
      run-time panics are recorded by the [proc] monad: a trace of events
      together with either a value or the way the process stopped;
    - goroutines started by the directory walk are recorded as events and
      run to completion one after another, in the order in which they were
      started, at the point where the code waits for them ([r.wg.Wait()]);
    - the standard library is modelled from its documentation: [strconv],
      [strings], [sort], [log], [fmt] and [path/filepath], with [int] taken
      as 64 bits wide.

    Embedded from [host.go]: the types [Host], [Category], [HostType] and
    [HostInfo], [HostInfo.Execute], [HostInfo.MakeCLI], [HostInfo.getHosts],
    [Category.PrimaryHost], [Category.GetHost], [HostType.List],
    [HostType.Hosts], [HostType.PrimaryHost], [HostType.PrintType],
    [Host.hasHost] and [Host.Execute]. Embedded from the repository file:
    the type [Repo], [LoadRepos], [NewRepo], [ListRepos], [Repo.Keys],
    [Repo.SubrepoKeys], [Repo.Execute], [Repo.walk], [Repo.loadInfo],
    [Repo.loadSubrepo] and [Repo.isSubrepo]. The order in which [range]
    yields the entries of a map is an argument of the functions that depend
    on it. The git helpers ([UpdateRepos], [AddRepo], [Repo.git]) call a
    function that is declared outside the files at hand and are left out,
    as are the two [String] methods. *)

From Stdlib Require Import ZArith Ascii String Lia.
From stdpp Require Import base option list strings gmap sorting.

Local Open Scope Z_scope.

(** ** Processes: traces, exits and panics *)

(** The run-time panics the code can raise. *)
Inductive panic : Type :=
| IndexOutOfRange (i : Z) (len : nat)   (* s[i] with i outside [0, len) *)
| SliceBoundsOutOfRange (lo : Z) (len : nat) (* s[lo:] with lo > len *)
| NilDereference.                       (* field access through a nil pointer *)

(** How a process stops before the end of the function. *)
Inductive halt : Type :=
| Exit (status : Z)      (* os.Exit(status), also the tail of log.Fatal *)
| Panicked (p : panic).  (* the runtime prints the panic and exits with status 2 *)

(** The two [go] statements of the program, each with its argument. *)
Inductive goroutine : Type :=
| go_loadInfo (path : string)      (* go r.loadInfo(path) *)
| go_loadSubrepo (path : string).  (* go r.loadSubrepo(path) *)

(** What a process does to the outside world. *)
Inductive event : Type :=
| Stdout (s : string)                       (* bytes written to os.Stdout *)
| Logged (s : string)                       (* one line written by package log *)
| Ran (path : string) (argv : list string)  (* exec.Cmd{Path, Args}.Run() *)
| Go (g : goroutine).                       (* a goroutine was started *)

Definition proc (A : Type) : Type := (list event * (halt + A))%type.

Definition trace {A} (p : proc A) : list event := p.1.
Definition outcome {A} (p : proc A) : halt + A := p.2.

Global Instance proc_ret : MRet proc := λ A a, ([], inr a).
Global Instance proc_bind : MBind proc := λ A B f m,
  match m with
  | (t, inl h) => (t, inl h)
  | (t, inr a) => let '(t', r) := f a in (t ++ t', r)
  end.

Definition emit (e : event) : proc unit := ([e], inr tt).
Definition stop {A} (h : halt) : proc A := ([], inl h).
Definition raise {A} (p : panic) : proc A := stop (Panicked p).

(** [fmt.Print]-family output on standard output. *)
Definition fmt_Print (s : string) : proc unit := emit (Stdout s).
Definition newline : string := String (ascii_of_nat 10) "".
Definition fmt_Println (s : string) : proc unit := emit (Stdout (s +:+ newline)).

(** [log.Println] writes one line, its operands separated by spaces;
    [log.Fatal] writes one line, its string operands set side by side, and
    then calls [os.Exit(1)]. The line is recorded without the time stamp
    that the logger puts in front of it. *)
Definition log_Println (s : string) : proc unit := emit (Logged s).
Definition os_Exit {A} (status : Z) : proc A := stop (Exit status).
Definition log_Fatal {A} (s : string) : proc A := emit (Logged s) ≫= λ _, os_Exit 1.

(** Pointers. *)
Definition ptr (A : Type) : Type := option A.
Definition nil {A} : ptr A := None.
Definition addr {A} (a : A) : ptr A := Some a.
Definition deref {A} (p : ptr A) : proc A :=
  match p with
  | Some a => mret a
  | None => raise NilDereference
  end.

(** Slicing [s[lo:]]. *)
Definition slice_from {A} (s : list A) (lo : nat) : proc (list A) :=
  if (lo <=? length s)%nat then mret (drop lo s)
  else raise (SliceBoundsOutOfRange (Z.of_nat lo) (length s)).

(** Slice indexing [s[i]] with a Go [int] index. *)
Definition index {A} (s : list A) (i : Z) : proc A :=
  if i <? 0 then raise (IndexOutOfRange i (length s))
  else match s !! Z.to_nat i with
       | Some a => mret a
       | None => raise (IndexOutOfRange i (length s))
       end.

(** A process that stopped with a diagnostic: a logged line followed by a
    non-zero exit, or a panic (reported by the runtime, exit status 2). *)
Definition fatal {A} (p : proc A) : Prop :=
  match outcome p with
  | inl (Exit status) => status ≠ 0 ∧ ∃ msg, last (trace p) = Some (Logged msg)
  | inl (Panicked _) => True
  | inr _ => False
  end.


(** No program was started. *)
Definition no_host_action {A} (p : proc A) : Prop :=
  ∀ path argv, Ran path argv ∉ trace p.

(** ** Package strings, strconv and sort *)

(** [strings.HasPrefix]:
    [len(s) >= len(prefix) && s[0:len(prefix)] == prefix]. *)
Definition HasPrefix (s prefix : string) : bool :=
  (String.length prefix <=? String.length s)%nat
  && String.eqb (String.substring 0 (String.length prefix) s) prefix.

(** [strings.HasSuffix]:
    [len(s) >= len(suffix) && s[len(s)-len(suffix):] == suffix]. *)
Definition HasSuffix (s suffix : string) : bool :=
  (String.length suffix <=? String.length s)%nat
  && String.eqb (String.substring (String.length s - String.length suffix)
                                  (String.length suffix) s) suffix.

(** [strings.Join]. *)
Definition Join (elems : list string) (sep : string) : string :=
  String.concat sep elems.

(** [sort.Strings]: ascending byte-wise lexicographic order. *)
Definition sort_Strings (keys : list string) : list string :=
  merge_sort String.le keys.

(** The value of a decimal digit. *)
Definition digit (c : ascii) : option Z :=
  let n := Z.of_N (N_of_ascii c) - 48 in
  if (0 <=? n) && (n <=? 9) then Some n else None.

Fixpoint digits (s : string) (acc : Z) : option Z :=
  match s with
  | EmptyString => Some acc
  | String c s' =>
      match digit c with
      | Some d => digits s' (acc * 10 + d)
      | None => None
      end
  end.

(** Go's [int] on the 64-bit platforms. *)
Definition int_min : Z := - 2 ^ 63.
Definition int_max : Z := 2 ^ 63 - 1.

(** [strconv.Atoi]: an optional sign followed by at least one decimal digit,
    the value within the range of [int]; [None] stands for a non-nil error
    (syntax or range). *)
Definition Atoi (s : string) : option Z :=
  match s with
  | EmptyString => None
  | String c rest =>
      let '(neg, body) :=
        if Ascii.eqb c "-" then (true, rest)
        else if Ascii.eqb c "+" then (false, rest)
        else (false, s) in
      match body with
      | EmptyString => None
      | _ =>
          match digits body 0 with
          | None => None
          | Some n =>
              let v := if neg then - n else n in
              if (int_min <=? v) && (v <=? int_max) then Some v else None
          end
      end
  end.

(** Decimal rendering of a number below ten. *)
Definition digit_char (d : Z) : ascii := ascii_of_N (Z.to_N (48 + d)).

Fixpoint utoa (fuel : nat) (n : Z) (acc : string) : string :=
  let acc' := String (digit_char (n mod 10)) acc in
  match fuel with
  | O => acc'
  | S fuel' => if n <? 10 then acc' else utoa fuel' (n / 10) acc'
  end.

(** [strconv.Itoa]. The fuel is the number of binary digits of the argument,
    which bounds the number of decimal ones. *)
Definition Itoa (x : Z) : string :=
  if x <? 0 then String "-" (utoa (Z.to_nat (Z.log2 (- x))) (- x) "")
  else utoa (Z.to_nat (Z.log2 x)) x "".

(** [for _, a := range l { body }] and [for i, a := range l { body }]. *)
Fixpoint range {A} (l : list A) (body : A → proc unit) : proc unit :=
  match l with
  | [] => mret tt
  | a :: l' => body a ;; range l' body
  end.

Fixpoint range_from {A} (i : Z) (l : list A) (body : Z → A → proc unit) : proc unit :=
  match l with
  | [] => mret tt
  | a :: l' => body i a ;; range_from (i + 1) l' body
  end.

(** ** Collaborators outside the program

    The packages the two files call without implementing them: program
    lookup and execution ([os/exec]), terminal colours
    ([github.com/fatih/color]) and paragraph wrapping
    ([github.com/tonnerre/golang-text]). *)

Inductive attribute : Type :=
| FgBlue | FgGreen | FgCyan | FgYellow | FgHiYellow | FgWhite | Bold.

Class Terminal : Type := {
  (** [exec.LookPath]: the path found for a program name (the error is
      dropped by the caller, which then holds the empty path). *)
  LookPath : string → string;
  (** [exec.Cmd.Run] with the standard streams inherited: [None] when the
      program ran and exited with status 0, the error text otherwise. *)
  cmd_Run : string → list string → option string;
  (** [color.New(attrs...).SprintfFunc()] applied to its format alone. *)
  SprintfFunc : list attribute → string → string;
  (** [text.Wrap]. *)
  Wrap : string → Z → string;
}.

(** ** The command framework

    [cli.Command] of [github.com/codegangsta/cli], with the fields that the
    program sets. An action is given the arguments of its context
    ([c.Args()]). *)

Module cli.
#[warnings="-register-all"] Inductive Command : Type := mkCommand {
  Name : string;
  Usage : string;
  HideHelp : bool;
  Subcommands : list Command;
  Action : list string → proc unit;
}.
End cli.

(** ** host.go *)

Module Host.
(** [type Host struct]. *)
Record t : Type := mk {
  FQDN : string;
  Summary : string;
  Kind : string;
  Primary : bool;
}.

Definition zero : t := mk "" "" "" false.


Section with_terminal.
Context `{Terminal}.

(** [func (h *Host) Execute(extra ...string)]. *)
Definition Execute (h : ptr t) (extra : list string) : proc unit :=
  let ssh := LookPath "ssh" in
  h ← deref h;
  let args := [ssh; FQDN h; "-A"; "-t"] ++ extra in
  emit (Ran ssh args) ;;
  match cmd_Run ssh args with
  | Some err => log_Fatal ("ssh command failed: " +:+ err)
  | None => mret tt
  end.
End with_terminal.
End Host.

Module Category.
(** [type Category struct]. *)
Record t : Type := mk {
  Summary : string;
  Primary : bool;
  Hosts : list Host.t;
}.

Definition zero : t := mk "" false [].

(** The loop of [PrimaryHost]: the first host of the slice whose flag is
    set. *)
Fixpoint first_primary (hosts : list Host.t) : option Host.t :=
  match hosts with
  | [] => None
  | host :: hosts' => if Host.Primary host then Some host else first_primary hosts'
  end.

(** [func (c *Category) PrimaryHost() (h *Host)]. *)
Definition PrimaryHost (c : t) : proc (ptr Host.t) :=
  match first_primary (Hosts c) with
  | Some host => mret (addr host)
  | None =>
      (* No primary was found, just pick the first one *)
      host ← index (Hosts c) 0;
      mret (addr host)
  end.

(** The loop of [GetHost]. *)
Fixpoint first_named (fqdn : string) (hosts : list Host.t) : option Host.t :=
  match hosts with
  | [] => None
  | host :: hosts' =>
      if String.eqb (Host.FQDN host) fqdn then Some host else first_named fqdn hosts'
  end.

(** [func (c *Category) GetHost(fqdn string) (h *Host)]: the bare [return]
    hands back the named result, still [nil]. *)
Definition GetHost (c : t) (fqdn : string) : ptr Host.t :=
  match first_named fqdn (Hosts c) with
  | Some host => addr host
  | None => nil
  end.
End Category.

Module HostType.
(** [type HostType map[string]Category]. *)
Abbreviation t := (gmap string Category.t).

(** [func (h HostType) List() (keys []string)]. The order in which [range]
    yields the keys is unspecified; the sort makes the result independent
    of it. *)
Definition List (h : t) : list string :=
  sort_Strings (map_to_list h).*1.

(** [for key, cat := range h] yields the entries of the map in an order
    that the language leaves open: [order] is any arrangement of them. *)
Definition range_order (h : t) (order : list (string * Category.t)) : Prop :=
  order ≡ₚ map_to_list h.

(** [func (h HostType) Hosts() (hosts []Host)], [order] being the order in
    which [range] yields the categories. *)
Definition Hosts (order : list (string * Category.t)) : list Host.t :=
  foldl (λ hosts entry,
           foldl (λ hosts host, hosts ++ [host]) hosts (Category.Hosts entry.2))
        [] order.

(** [func (h HostType) PrimaryHost() *Host], [order] being the order in
    which [range] yields the categories. *)
Fixpoint PrimaryHost (order : list (string * Category.t)) : proc (ptr Host.t) :=
  match order with
  | [] => mret nil
  | (_, cat) :: order' =>
      if Category.Primary cat then Category.PrimaryHost cat else PrimaryHost order'
  end.

Section with_terminal.
Context `{Terminal}.

(** [func (h HostType) PrintType()]. *)
Definition PrintType (h : t) : proc unit :=
  let blue := SprintfFunc [FgBlue; Bold] in
  let green := SprintfFunc [FgGreen; Bold] in
  let cyan := SprintfFunc [FgCyan; Bold] in
  let yellow := SprintfFunc [FgYellow] in
  let hiyellow := SprintfFunc [FgHiYellow; Bold] in
  let grey := SprintfFunc [FgWhite] in
  range (List h) (λ t,
    fmt_Println (cyan t +:+ ":") ;;
    let cat := default Category.zero (h !! t) in
    fmt_Print ("  " +:+ Wrap (Category.Summary cat) 80 +:+ newline) ;;
    range_from 0 (Category.Hosts cat) (λ x host,
      fmt_Print ("  " +:+ yellow "[" +:+ hiyellow (Itoa x) +:+ yellow "]"
                 +:+ " " +:+ blue (Host.FQDN host)) ;;
      (if Host.Primary host
       then fmt_Print (" (" +:+ green "primary" +:+ ")")
       else mret tt) ;;
      (if negb (String.eqb (Host.Summary host) "")
       then fmt_Print (" (" +:+ grey (Host.Summary host) +:+ ")")
       else mret tt) ;;
      fmt_Println "") ;;
    fmt_Println "").
End with_terminal.
End HostType.

Module HostInfo.
(** [type HostInfo struct]. The back pointer [repo *Repo] is read by no
    method of the file and is left out. *)
Record t : Type := mk {
  RawType : string;
  RawSummary : string;
  Types : HostType.t;
  id : string;
  path : string;
}.

Definition ID (h : t) : string := id h.
Definition Type_ (h : t) : string := RawType h.
Definition Path (h : t) : string := path h.
Definition Summary (h : t) : string := RawSummary h.

(** [func (h HostInfo) getHosts() (Types []string)], [order] being the
    order in which [range] yields the categories of [h.Types]. *)
Definition getHosts (order : list (string * Category.t)) : list string :=
  foldl (λ Types host, Types ++ [Host.FQDN host]) [] (HostType.Hosts order).

Section with_terminal.
Context `{Terminal}.

(** [func (h HostInfo) Execute(c *cli.Context)], on [args = c.Args()]. *)
Definition Execute (h : t) (args : list string) : proc unit :=
  let arglen := length args in
  match arglen with
  | 0%nat =>
      (* No further arguments: print the list of Types. *)
      HostType.PrintType (Types h)
  | 1%nat | 2%nat =>
      t ← index args 0;
      match Types h !! t with
      | Some cat =>
          if (arglen =? 1)%nat then
            (* One argument, go to the primary of that category *)
            host ← Category.PrimaryHost cat;
            Host.Execute host [""]
          else
            (* Two arguments, go to specified host *)
            a1 ← index args 1;
            match Atoi a1 with
            | None => log_Fatal ("Non-integer argument:" +:+ a1)
            | Some x =>
                host ← index (Category.Hosts cat) x;
                Host.Execute (addr host) [""]
            end
      | None =>
          fmt_Println ("No such type: " +:+ t) ;;
          fmt_Println ("Choices are: " +:+ Join (HostType.List (Types h)) ", ") ;;
          os_Exit 1
      end
  | _ => mret tt
  end.

(** The host command of [MakeCLI] (hc), for one host of the category. *)
Definition host_command (cat : Category.t) (host : Host.t) : cli.Command :=
  cli.mkCommand (Host.FQDN host) (Host.Summary host) true []
    (λ args,
       host ← match args with
              | [] =>
                  (* No extra arguments - go to the primary host *)
                  Category.PrimaryHost cat
              | arg :: _ =>
                  (* Arguments were defined - go to the fqdn specified *)
                  mret (Category.GetHost cat arg)
              end;
       Host.Execute host [""]).

(** The category command of [MakeCLI] (cc), for one key of [h.Types]. *)
Definition category_command (h : t) (key : string) : cli.Command :=
  let cat := default Category.zero (Types h !! key) in
  cli.mkCommand key (Category.Summary cat) true
    (host_command cat <$> Category.Hosts cat)
    (λ _, host ← Category.PrimaryHost cat; Host.Execute host [""]).

(** [func (h HostInfo) MakeCLI() []cli.Command]. *)
Definition MakeCLI (h : t) : list cli.Command :=
  category_command h <$> HostType.List (Types h).
End with_terminal.
End HostInfo.

(** ** Package path/filepath *)

Definition is_sep (c : ascii) : bool := Ascii.eqb c "/".

Fixpoint has_sep (s : string) : bool :=
  match s with
  | EmptyString => false
  | String c s' => is_sep c || has_sep s'
  end.

(** The first loop of [filepath.Base]: strip trailing slashes. *)
Fixpoint strip_trailing (s : string) : string :=
  match s with
  | EmptyString => EmptyString
  | String c s' =>
      match strip_trailing s' with
      | EmptyString => if is_sep c then EmptyString else String c EmptyString
      | rest => String c rest
      end
  end.

(** The second loop of [filepath.Base]: what follows the last slash. *)
Fixpoint last_element (s : string) : string :=
  match s with
  | EmptyString => EmptyString
  | String c s' =>
      if has_sep s' then last_element s'
      else if is_sep c then s' else s
  end.

(** [filepath.Base]. *)
Definition Base (path : string) : string :=
  if String.eqb path "" then "."
  else
    let path := last_element (strip_trailing path) in
    (* If empty now, it had only slashes. *)
    if String.eqb path "" then "/" else path.

(** [filepath.Join(dir, name)] as [filepath.Walk] calls it: on the cleaned
    path of a directory and the name of one of its entries, where joining
    with a separator and cleaning leaves these three cases. *)
Definition filepath_Join (dir name : string) : string :=
  if String.eqb dir "/" then "/" +:+ name
  else if String.eqb dir "." then name
  else dir +:+ "/" +:+ name.

(** Go's [error] values: [nil] is [None]. *)
Inductive error_value : Type :=
| SkipDir                 (* filepath.SkipDir *)
| Error (text : string).  (* any other error, by its text *)

Definition error : Type := option error_value.

Definition error_text (e : error_value) : string :=
  match e with
  | SkipDir => "skip this directory"
  | Error text => text
  end.

(** The file system below a path, as [os.Lstat] and [readDirNames] show it
    to the walk. The entries of a directory are held in the order of
    [readDirNames], which sorts the names. *)
#[warnings="-register-all"] Inductive fsnode : Type :=
| File (name : string)
| Dir (name : string) (entries : string + list fsnode)
      (* [inl text]: reading the directory fails with that error *)
| NoStat (name : string) (text : string).
      (* [os.Lstat] on the entry fails with that error *)

Definition node_name (n : fsnode) : string :=
  match n with
  | File name | Dir name _ | NoStat name _ => name
  end.

(** [os.FileInfo], of which the walk reads the name and the kind. *)
Record FileInfo : Type := {
  Name : string;
  IsDir : bool;
}.

(** What [os.Lstat] tells about a node on which it succeeds. *)
Definition Lstat (n : fsnode) : FileInfo :=
  {| Name := node_name n;
     IsDir := match n with Dir _ _ => true | _ => false end |}.

Definition is_SkipDir (e : error_value) : bool :=
  match e with
  | SkipDir => true
  | Error _ => false
  end.

Section Walk.
(** [type WalkFunc func(path string, info os.FileInfo, err error) error] *)
Variable walkFn : string → ptr FileInfo → error → proc error.

Section names.
Variable walk : string → fsnode → proc error.

(** The loop of [filepath.walk] over the names of a directory. *)
Fixpoint walk_names (path : string) (names : list fsnode) : proc error :=
  match names with
  | [] => mret None
  | entry :: names' =>
      let filename := filepath_Join path (node_name entry) in
      match entry with
      | NoStat _ text =>
          err ← walkFn filename nil (Some (Error text));
          match err with
          | Some (Error _) => mret err
          | _ => walk_names path names'
          end
      | _ =>
          err ← walk filename entry;
          match err with
          | Some e =>
              if negb (IsDir (Lstat entry)) || negb (is_SkipDir e) then mret err
              else walk_names path names'
          | None => walk_names path names'
          end
      end
  end.
End names.

(** [filepath.walk], as of Go 1.16: a directory is read before the walk
    function is called on it, and the function is called once, with the
    error of the read if there is one. (Earlier releases call the function
    first and, when the read fails, a second time; the two differ on
    unreadable directories only.) *)
Fixpoint walk (path : string) (info : fsnode) : proc error :=
  match info with
  | Dir _ entries =>
      let err := match entries with inl text => Some (Error text) | inr _ => None end in
      err1 ← walkFn path (addr (Lstat info)) err;
      match entries, err1 with
      | inr names, None => walk_names walk path names
      | _, _ => mret err1
      end
  | _ => walkFn path (addr (Lstat info)) None
  end.

(** [filepath.Walk]: the node is what [os.Lstat(root)] finds. *)
Definition Walk (root : string) (info : fsnode) : proc error :=
  err ← match info with
        | NoStat _ text => walkFn root nil (Some (Error text))
        | _ => walk root info
        end;
  match err with
  | Some SkipDir => mret None
  | _ => mret err
  end.
End Walk.

(** ** Documents and the helpers declared next to them *)

Module Info.
(** Modelled from the spec: the [Info] type is declared outside the files
    at hand, which only read its [ID] field and call its [Execute] method.
    The record follows the Document of the data model: a type tag, a
    summary, an identity, a file system path and the categories. *)
Record t : Type := mk {
  ID : string;
  Type_ : string;
  Summary : string;
  Path : string;
  Types : HostType.t;
}.

Definition zero : t := mk "" "" "" "" ∅.
End Info.

(** The document loader and the document action are implemented outside the
    files at hand. *)
Class Documents : Type := {
  (** [LoadInfo(path) (Info, error)]: the value handed back and the error,
      [None] for [nil]. *)
  LoadInfo : string → Info.t * option string;
  (** [Info.Execute()]. *)
  Info_Execute : Info.t → proc unit;
}.

(** [strings.TrimSuffix]. *)
Definition TrimSuffix (s suffix : string) : string :=
  if HasSuffix s suffix
  then String.substring 0 (String.length s - String.length suffix) s
  else s.

(** Modelled from the spec: [asKey] is declared outside the files at hand.
    The identity derivation rule takes the final path component and strips a
    trailing [.yaml]. *)
Definition asKey (path : string) : string := TrimSuffix (Base path) ".yaml".

(** Modelled from the spec: [getPath] is declared outside the files at hand
    and resolves the name of a repository to the directory that holds it.
    The paths of this development are resolved already, and [getPath]
    returns them as they are. *)
Definition getPath (p : string) : string := p.

(** [os.Stat] as the loader of the collection uses it: whether
    [os.IsNotExist] holds of the error of [os.Stat(path)]. *)
Class Markers : Type := {
  Stat_IsNotExist : string → bool;
}.

(** ** The repository tree *)

Module Repo.
(** [type Repo struct]. The wait group is replaced by the list of started
    goroutines; a nil map and an empty map read the same and are both [∅]. *)
#[warnings="-register-all"] Inductive t : Type := mk {
  Key : string;
  Info : gmap string Info.t;
  Control : gmap string Info.t;
  Subrepos : gmap string t;
  root : string;
}.

(** The zero value [Repo{}]. *)
Definition zero : t := mk "" ∅ ∅ ∅ "".

(** [func (r *Repo) Keys() []string]. *)
Definition Keys (r : t) : list string :=
  sort_Strings (Info.ID <$> (map_to_list (Info r)).*2).

(** [func (r *Repo) SubrepoKeys() []string]. *)
Definition SubrepoKeys (r : t) : list string :=
  sort_Strings (Key <$> (map_to_list (Subrepos r)).*2).

(** The loop of [Execute] over [args]: it ends at a document ([inl]) or
    leaves the loop with the value of the variable [repo] ([inr]). The
    two-valued lookup [repo, ok = repo.Subrepos[arg]] assigns the zero
    [Repo] to [repo] when the key is missing. *)
Fixpoint descend (repo : t) (args : list string) : Info.t + t :=
  match args with
  | [] => inr repo
  | arg :: args' =>
      match Info repo !! arg with
      | Some info => inl info
      | None =>
          match Subrepos repo !! arg with
          | Some sub => descend sub args'
          | None => inr zero
          end
      end
  end.

(** [func (r *Repo) isSubrepo(path string) bool]. *)
Definition isSubrepo (r_root : string) (path : string) : bool :=
  if String.eqb r_root path then false else true.

(** [func (r *Repo) walk(path string, info os.FileInfo, err error) error].
    Of the receiver only [r.root] is read; the goroutines are recorded. *)
Definition walk (r_root : string) (path : string) (info : ptr FileInfo) (err : error)
  : proc error :=
  match err with
  | Some e =>
      log_Println ("walk error:  " +:+ error_text e) ;;
      mret err
  | None =>
      (* Dotfile, like .git or whatever. Skip. *)
      if HasPrefix (Base path) "." then mret (Some SkipDir)
      else
        info ← deref info;
        if IsDir info && isSubrepo r_root path then
          emit (Go (go_loadSubrepo path)) ;;
          mret (Some SkipDir)
        else if HasSuffix path ".yaml" then
          emit (Go (go_loadInfo path)) ;;
          mret None
        else mret None
  end.

Section with_documents.
Context `{Documents}.

(** [func (r *Repo) loadInfo(path string)]: the receiver's maps are
    updated in place, here the updated receiver is returned. *)
Definition loadInfo (r : t) (path : string) : proc t :=
  let '(info, err) := LoadInfo path in
  match err with
  | Some e => log_Println ("Failed to load info:  " +:+ e)
  | None => mret tt
  end ;;
  if HasPrefix (asKey path) "_" then
    mret (mk (Key r) (Info r) (<[Info.ID info := info]> (Control r)) (Subrepos r) (root r))
  else
    mret (mk (Key r) (<[Info.ID info := info]> (Info r)) (Control r) (Subrepos r) (root r)).

(** [NewRepo] on a path where [os.Lstat] fails: the walk function is
    called once with the error and no goroutine is started. *)
Definition NewRepo_nostat (p : string) (text : string) : proc t :=
  let r := mk (asKey p) ∅ ∅ ∅ (getPath p) in
  Walk (walk (root r)) (root r) (NoStat (Base p) text) ;;
  mret r.

(** [built] holds, for the paths of the entries below [r.root], what
    [NewRepo] does there; a path that names no entry is one where
    [os.Lstat] fails. *)
Fixpoint NewRepo_in (built : list (string * proc t)) (path : string) : proc t :=
  match built with
  | [] => NewRepo_nostat path "no such file or directory"
  | (q, nr) :: built' => if String.eqb q path then nr else NewRepo_in built' path
  end.

(** [func (r *Repo) loadSubrepo(path string)]. *)
Definition loadSubrepo (built : list (string * proc t)) (r : t) (path : string)
  : proc t :=
  nr ← NewRepo_in built path;
  mret (mk (Key r) (Info r) (Control r) (<[Key nr := nr]> (Subrepos r)) (root r)).

(** [r.wg.Wait()]: the started goroutines run to completion, one after
    another in the order in which they were started. *)
Fixpoint wait (built : list (string * proc t)) (gs : list goroutine) (r : t) : proc t :=
  match gs with
  | [] => mret r
  | go_loadInfo path :: gs' => r' ← loadInfo r path; wait built gs' r'
  | go_loadSubrepo path :: gs' => r' ← loadSubrepo built r path; wait built gs' r'
  end.

(** The goroutines started in a trace. *)
Definition started (t : list event) : list goroutine :=
  omap (λ e, match e with Go g => Some g | _ => None end) t.

(** The body of [NewRepo], given what [NewRepo] does at the entries of
    the root. The error of [filepath.Walk] is dropped. *)
Definition NewRepo_at (built : list (string * proc t)) (p : string) (info : fsnode)
  : proc t :=
  let r := mk (asKey p) ∅ ∅ ∅ (getPath p) in
  let walked := Walk (walk (root r)) (root r) info in
  walked ;;
  wait built (started (trace walked)) r.

(** [func NewRepo(p string) (r Repo)], [info] being the file system
    found at [getPath(p)]. *)
Fixpoint NewRepo (p : string) (info : fsnode) : proc t :=
  NewRepo_at
    match info with
    | Dir _ (inr names) =>
        (λ entry, let path := filepath_Join (getPath p) (node_name entry) in
                  (path, NewRepo path entry)) <$> names
    | _ => []
    end
    p info.

Section with_markers.
Context `{Markers}.



End with_markers.
End with_documents.

(** [func ListRepos(repos map[string]Repo)]. *)
Definition ListRepos (repos : gmap string t) : proc unit :=
  range (sort_Strings (map_to_list repos).*1) (λ key, fmt_Println key).

Section with_terminal.
Context `{Terminal} `{Documents}.

(** [func (r *Repo) Execute(c *cli.Context)], on [c.Args()]. *)
Definition Execute (r : t) (cargs : list string) : proc unit :=
  (* The first argument is not needed since it was used to determine the
     location to this very repo. *)
  args ← slice_from cargs 1;
  match descend r args with
  | inl info => Info_Execute info
  | inr repo =>
      (* Nothing matched, or the end node is a repo. Print the contents,
         beginning with a blue listing of subrepos *)
      let blue := SprintfFunc [FgBlue; Bold] in
      range (SubrepoKeys repo) (λ key, fmt_Println (blue key)) ;;
      range (Keys repo) (λ key, fmt_Println key)
  end.
End with_terminal.
End Repo.

(** ** Notions used by the properties *)

(** Every document of the node is stored under its own identity and every
    sub-repository under its own key, and so on below. *)
Inductive well_keyed : Repo.t → Prop :=
| well_keyed_node (r : Repo.t) :
    (∀ key info, Repo.Info r !! key = Some info → Info.ID info = key) →
    (∀ key info, Repo.Control r !! key = Some info → Info.ID info = key) →
    (∀ key sub, Repo.Subrepos r !! key = Some sub → Repo.Key sub = key) →
    (∀ key sub, Repo.Subrepos r !! key = Some sub → well_keyed sub) →
    well_keyed r.



(** A process that reaches its end having written to the standard output
    only. *)
Definition is_Stdout (e : event) : Prop :=
  match e with Stdout _ => True | _ => False end.

Definition prints (m : proc unit) : Prop :=
  ∃ t, m = (t, inr tt) ∧ Forall is_Stdout t.

(** The programs started in a trace, each with its argument vector. *)
Definition programs (t : list event) : list (string * list string) :=
  omap (λ e, match e with Ran path argv => Some (path, argv) | _ => None end) t.

(** An event of the loader: a goroutine is started or a line is logged. *)
Definition is_loading (e : event) : Prop :=
  match e with Go _ | Logged _ => True | _ => False end.

(** A process that builds the node of the repository at [p]: it reaches
    its end, having started goroutines and logged lines only, with a node
    that carries the key and the root of [p] and is well keyed. *)
Definition builds (p : string) (m : proc Repo.t) : Prop :=
  ∃ t r, m = (t, inr r) ∧ Forall is_loading t ∧
         Repo.Key r = asKey p ∧ Repo.root r = getPath p ∧ well_keyed r.

(** The node that a sequence of sub-repository keys leads to, none of the
    keys naming a document on the way. *)
Inductive leads_to : Repo.t → list string → Repo.t → Prop :=
| leads_to_here (r : Repo.t) : leads_to r [] r
| leads_to_below (r sub r' : Repo.t) (key : string) (keys : list string) :
    Repo.Info r !! key = None →
    Repo.Subrepos r !! key = Some sub →
    leads_to sub keys r' →
    leads_to r (key :: keys) r'.

(** A property of nodes that holds of the node and of every node below. *)
Inductive everywhere (P : Repo.t → Prop) : Repo.t → Prop :=
| everywhere_node (r : Repo.t) :
    P r →
    (∀ key sub, Repo.Subrepos r !! key = Some sub → everywhere P sub) →
    everywhere P r.

(** The control documents are apart from the documents: the keys of the
    control map start with an underscore, those of the document map do
    not. *)
Definition separated (r : Repo.t) : Prop :=
  (∀ key, is_Some (Repo.Info r !! key) → HasPrefix key "_" = false) ∧
  (∀ key, is_Some (Repo.Control r !! key) → HasPrefix key "_" = true).

(** A goroutine started for a path that is not hidden, the loader of a
    document moreover for a path that ends in [.yaml]. *)
Definition visible (g : goroutine) : Prop :=
  match g with
  | go_loadInfo path =>
      HasPrefix (Base path) "." = false ∧ HasSuffix path ".yaml" = true
  | go_loadSubrepo path => HasPrefix (Base path) "." = false
  end.

Definition starts_visible (e : event) : Prop :=
  match e with
  | Go g => visible g
  | _ => True
  end.

Section origins.
Context `{Documents}.

(** Everything in the maps of the node comes from a path that is not
    hidden: the sub-repositories are rooted at such paths, the documents
    and control documents were loaded from such paths ending in [.yaml]. *)
Definition from_visible_paths (r : Repo.t) : Prop :=
  (∀ key sub, Repo.Subrepos r !! key = Some sub →
     HasPrefix (Base (Repo.root sub)) "." = false ∧ key = asKey (Repo.root sub)) ∧
  (∀ key info, Repo.Info r !! key = Some info →
     ∃ path, info = (LoadInfo path).1 ∧ visible (go_loadInfo path) ∧
             HasPrefix (asKey path) "_" = false) ∧
  (∀ key info, Repo.Control r !! key = Some info →
     ∃ path, info = (LoadInfo path).1 ∧ visible (go_loadInfo path) ∧
             HasPrefix (asKey path) "_" = true).
End origins.

Global Instance goroutine_eq_dec : EqDecision goroutine.
Proof. solve_decision. Defined.


Section slots.
Context `{Documents}.



End slots.

Section filed.
Context `{Documents}.

End filed.

(** ** The sample inventory

    The document that ships with the program: a [type: host] inventory of
    database machines. *)

Module Sample.
Definition host (fqdn : string) : Host.t := Host.mk fqdn "" "" false.

Definition db1_cluster6 : Host.t := Host.mk "db1.cluster6.company.net" "" "" true.
Definition db4 : Host.t :=
  Host.mk "db4.cluster3.company.net" "Designated for long queries" "longquery" true.
Definition db8 : Host.t := Host.mk "db8.cluster3.company.net" "" "" true.
Definition db1_cluster3 : Host.t :=
  Host.mk "db1.cluster3.company.net" "Hot standby, disaster recovery only" "disaster" false.

Definition master : Category.t :=
  Category.mk "Master database, read/write" true [db1_cluster6].
Definition ro : Category.t :=
  Category.mk "Read-only slaves" false
    [host "db2.cluster3.company.net"; host "db5.cluster3.company.net";
     host "db6.cluster3.company.net"; db4].
Definition wal : Category.t :=
  Category.mk "WAL archive storage machines" false [host "db7.cluster3.company.net"].
Definition standby : Category.t :=
  Category.mk "Hot standby machines" false [db8; db1_cluster3].
Definition task : Category.t :=
  Category.mk "task-only db machines" false
    [host "taskdb1.cluster6.company.net"; host "taskdb2.cluster6.company.net"].

Definition types : HostType.t :=
  <["master" := master]> (<["ro" := ro]> (<["wal" := wal]>
    (<["standby" := standby]> (<["task" := task]> ∅)))).

Definition db : HostInfo.t :=
  HostInfo.mk "host" "PostgreSQL database machines" types "db" "infra/db.yaml".

(** A terminal without colours on which every program runs and succeeds. *)
Definition plain : Terminal := {|
  LookPath name := "/usr/bin/" +:+ name;
  cmd_Run _ _ := None;
  SprintfFunc _ format := format;
  Wrap s _ := s;
|}.

(** A loader for which every document is well formed except those named
    [bad.yaml], for which it hands back the zero [Info] and an error. *)
Definition loader : Documents := {|
  LoadInfo path :=
    if HasSuffix path "bad.yaml"
    then (Info.zero, Some "yaml: did not find expected key")
    else (Info.mk (asKey path) "host" "" path ∅, None);
  Info_Execute info := fmt_Println ("ssh " +:+ Info.ID info);
|}.

(** A repository node with one document and one sub-repository. *)
Definition db_info : Info.t := Info.mk "db" "host" "" "infra/db.yaml" types.
Definition cluster6 : Repo.t :=
  Repo.mk "cluster6" {[ "cache" := Info.mk "cache" "host" "" "infra/cluster6/cache.yaml" ∅ ]}
          ∅ ∅ "infra/cluster6".
Definition infra : Repo.t :=
  Repo.mk "infra" {[ "db" := db_info ]} ∅ {[ "cluster6" := cluster6 ]} "infra".

(** Directories as the walk finds them, the names in sorted order. *)
Definition marker : fsnode := File "_repo.yaml".

(** One document of the directory is malformed. *)
Definition with_bad_document : fsnode :=
  Dir "infra" (inr [marker; File "bad.yaml"; File "db.yaml"]).


(** The directory holds a hidden regular file. *)
Definition with_hidden_file : fsnode :=
  Dir "infra" (inr [File ".gitignore"; marker; File "db.yaml";
                    Dir "west" (inr [marker; File "web.yaml"])]).

(** The directory holds a hidden directory. *)
Definition with_hidden_directory : fsnode :=
  Dir "infra" (inr [Dir ".git" (inr [File "config.yaml"]); marker; File "db.yaml";
                    Dir "west" (inr [marker; File "web.yaml"])]).

(** The names of the entries of a directory, which [readDirNames] sorts. *)
Definition names_sorted (info : fsnode) : bool :=
  match info with
  | Dir _ (inr names) => bool_decide (Sorted String.le (node_name <$> names))
  | _ => true
  end.

(** A loader that names every document after its path. *)
Definition named_loader : Documents := {|
  LoadInfo path := (Info.mk (asKey path) "host" "" path ∅, None);
  Info_Execute info := fmt_Println ("ssh " +:+ Info.ID info);
|}.

End Sample.

(** * Properties *)

(** ** Facts about the process monad and the library models *)

Lemma proc_left_id {A B} (a : A) (f : A → proc B) : mret a ≫= f = f a.
Proof. unfold mbind, proc_bind, mret, proc_ret. by destruct (f a). Qed.

Lemma proc_right_id {A} (m : proc A) : m ≫= mret = m.
Proof.
  destruct m as [t [h|a]]; [done|].
  unfold mbind, proc_bind, mret, proc_ret. by rewrite app_nil_r.
Qed.

Lemma proc_assoc {A B C} (m : proc A) (f : A → proc B) (g : B → proc C) :
  (m ≫= f) ≫= g = m ≫= λ a, f a ≫= g.
Proof.
  destruct m as [t [h|a]]; [done|].
  unfold mbind, proc_bind. destruct (f a) as [t' [h|b]]; [done|].
  destruct (g b) as [t'' r]. by rewrite app_assoc.
Qed.

Lemma proc_stop_bind {A B} (t : list event) (h : halt) (f : A → proc B) :
  (t, inl h) ≫= f = (t, inl h).
Proof. done. Qed.

Lemma index_lookup {A} (s : list A) (i : nat) (a : A) :
  s !! i = Some a → index s (Z.of_nat i) = mret a.
Proof.
  intros Hi. unfold index.
  destruct (Z.ltb_spec (Z.of_nat i) 0) as [Hneg|_]; [lia|].
  by rewrite Nat2Z.id, Hi.
Qed.

Lemma index_in_range {A} (s : list A) (x : Z) :
  0 ≤ x < Z.of_nat (length s) →
  ∃ a, s !! Z.to_nat x = Some a ∧ index s x = mret a.
Proof.
  intros Hx.
  destruct (lookup_lt_is_Some_2 s (Z.to_nat x)) as [a Ha]; [lia|].
  exists a. split; [done|].
  rewrite <- (Z2Nat.id x) by lia. by apply index_lookup.
Qed.

Lemma index_out_of_range {A} (s : list A) (x : Z) :
  ¬ (0 ≤ x < Z.of_nat (length s)) →
  index s x = raise (IndexOutOfRange x (length s)).
Proof.
  intros Hx. unfold index.
  destruct (Z.ltb_spec x 0) as [|Hpos]; [done|].
  rewrite lookup_ge_None_2; [done|lia].
Qed.

(** [sort.Strings] yields the ascending arrangement of its argument. *)
Lemma sort_Strings_sorted (keys : list string) :
  StronglySorted String.le (sort_Strings keys).
Proof. apply StronglySorted_merge_sort; apply _. Qed.

Lemma sort_Strings_perm (keys : list string) : sort_Strings keys ≡ₚ keys.
Proof. apply merge_sort_Permutation. Qed.

Lemma List_elem_of (h : HostType.t) (key : string) :
  key ∈ HostType.List h ↔ is_Some (h !! key).
Proof.
  unfold HostType.List. rewrite sort_Strings_perm.
  rewrite list_elem_of_fmap. split.
  - intros [[k c] [-> Hkc]]. apply elem_of_map_to_list in Hkc. by exists c.
  - intros [c Hc]. exists (key, c). split; [done|]. by apply elem_of_map_to_list.
Qed.


(** ** Default host selection *)

(** The first element of a list that passes a test. *)
Lemma find_first_None {A} (P : A → bool) (l : list A) :
  List.find P l = None ↔ Forall (λ y, P y = false) l.
Proof.
  induction l as [|x l IH]; simpl.
  - split; [constructor|done].
  - destruct (P x) eqn:Hp.
    + split; [done|]. intros Hall. inversion Hall; congruence.
    + rewrite IH. split; [by constructor|by inversion 1].
Qed.

Lemma find_first_Some {A} (P : A → bool) (l : list A) (x : A) :
  List.find P l = Some x ↔
  ∃ i, l !! i = Some x ∧ P x = true ∧
       ∀ j y, (j < i)%nat → l !! j = Some y → P y = false.
Proof.
  induction l as [|x0 l IH]; simpl.
  - split; [done|]. by intros (i & Hi & _).
  - destruct (P x0) eqn:Hp.
    + split.
      * intros [= <-]. exists 0%nat. split_and!; [done..|]. intros j y Hj. lia.
      * intros ([|i] & Hi & Hprim & Hbefore).
        -- by simplify_eq/=.
        -- specialize (Hbefore 0%nat x0). simpl in Hbefore.
           rewrite Hbefore in Hp; [done|lia|done].
    + rewrite IH. split.
      * intros (i & Hi & Hprim & Hbefore). exists (S i). split_and!; [done..|].
        intros [|j] y Hj Hy; simplify_eq/=; [done|].
        apply (Hbefore j); [lia|done].
      * intros ([|i] & Hi & Hprim & Hbefore); simplify_eq/=; [congruence|].
        exists i. split_and!; [done..|].
        intros j y Hj Hy. apply (Hbefore (S j)); [lia|done].
Qed.

Lemma first_primary_find (hosts : list Host.t) :
  Category.first_primary hosts = List.find Host.Primary hosts.
Proof. induction hosts as [|h hosts IH]; simpl; [done|]. by rewrite IH. Qed.

Lemma first_named_find (fqdn : string) (hosts : list Host.t) :
  Category.first_named fqdn hosts =
  List.find (λ h, String.eqb (Host.FQDN h) fqdn) hosts.
Proof. induction hosts as [|h hosts IH]; simpl; [done|]. by rewrite IH. Qed.

Lemma first_primary_None (hosts : list Host.t) :
  Category.first_primary hosts = None ↔ Forall (λ h, Host.Primary h = false) hosts.
Proof. rewrite first_primary_find. apply find_first_None. Qed.

Lemma first_primary_Some (hosts : list Host.t) (host : Host.t) :
  Category.first_primary hosts = Some host ↔
  ∃ i, hosts !! i = Some host ∧ Host.Primary host = true ∧
       ∀ j h, (j < i)%nat → hosts !! j = Some h → Host.Primary h = false.
Proof. rewrite first_primary_find. apply find_first_Some. Qed.

Section selection.
Context `{Terminal}.

(** One token: the category's default host is opened. *)
Lemma Execute_one_token (h : HostInfo.t) (t : string) (cat : Category.t) :
  HostInfo.Types h !! t = Some cat →
  HostInfo.Execute h [t] = Category.PrimaryHost cat ≫= λ host, Host.Execute host [""].
Proof.
  intros Ht. unfold HostInfo.Execute. cbn [length Nat.eqb].
  change (index [t] 0) with (mret (M := proc) t).
  by rewrite proc_left_id, Ht.
Qed.

(** C1. Default selection on a category: when some host carries the
    primary flag, the host selected is the first one in declaration order
    that carries it; when the host list is not empty and no host carries
    the flag, it is the host at index 0. The one-token form of
    [HostInfo.Execute] opens a session on exactly that host. *)
Theorem PrimaryHost_first_primary_or_first (c : Category.t) :
  (∀ h0, h0 ∈ Category.Hosts c → Host.Primary h0 = true →
     ∃ i host,
       Category.Hosts c !! i = Some host ∧ Host.Primary host = true ∧
       (∀ j h', (j < i)%nat → Category.Hosts c !! j = Some h' → Host.Primary h' = false) ∧
       Category.PrimaryHost c = mret (addr host) ∧
       ∀ doc t, HostInfo.Types doc !! t = Some c →
                HostInfo.Execute doc [t] = Host.Execute (addr host) [""]) ∧
  (Category.Hosts c ≠ [] →
   (∀ h0, h0 ∈ Category.Hosts c → Host.Primary h0 = false) →
     ∃ host,
       Category.Hosts c !! 0%nat = Some host ∧
       Category.PrimaryHost c = mret (addr host) ∧
       ∀ doc t, HostInfo.Types doc !! t = Some c →
                HostInfo.Execute doc [t] = Host.Execute (addr host) [""]).
Proof.
  split.
  - intros h0 Hin Hp.
    destruct (Category.first_primary (Category.Hosts c)) as [host|] eqn:Hfirst.
    + pose proof Hfirst as (i & Hi & Hprim & Hbefore)%first_primary_Some.
      assert (Category.PrimaryHost c = mret (addr host)) as Hsel.
      { unfold Category.PrimaryHost. by rewrite Hfirst. }
      exists i, host. split_and!; [done..|].
      intros doc t Ht.
      by rewrite (Execute_one_token _ _ _ Ht), Hsel, proc_left_id.
    + apply first_primary_None in Hfirst.
      rewrite Forall_forall in Hfirst. specialize (Hfirst h0 Hin). congruence.
  - intros Hne Hnone.
    destruct (Category.Hosts c) as [|host rest] eqn:Hhosts; [done|].
    assert (Category.PrimaryHost c = mret (addr host)) as Hsel.
    { unfold Category.PrimaryHost. rewrite Hhosts.
      assert (Category.first_primary (host :: rest) = None) as ->; [|done].
      apply first_primary_None, Forall_forall. intros h' Hh'. by apply Hnone. }
    exists host. split_and!; [done..|].
    intros doc t Ht.
    by rewrite (Execute_one_token _ _ _ Ht), Hsel, proc_left_id.
Qed.
End selection.

(** C10. Default selection returns a host exactly when the host list is not
    empty: on an empty list (which has no primary host) it indexes
    position 0 of the empty slice and panics, and this is the only way in
    which it fails. *)
Theorem PrimaryHost_total_iff_nonempty (c : Category.t) :
  (Category.Hosts c = [] ↔
   Category.PrimaryHost c = raise (IndexOutOfRange 0 0)) ∧
  (Category.Hosts c ≠ [] ↔
   ∃ host, host ∈ Category.Hosts c ∧ Category.PrimaryHost c = mret (addr host)) ∧
  ((∃ p, outcome (Category.PrimaryHost c) = inl (Panicked p)) ↔ Category.Hosts c = []).
Proof.
  assert (Category.Hosts c = [] → Category.PrimaryHost c = raise (IndexOutOfRange 0 0)) as Hempty.
  { intros Hnil. unfold Category.PrimaryHost. by rewrite Hnil. }
  assert (Category.Hosts c ≠ [] →
          ∃ host, host ∈ Category.Hosts c ∧ Category.PrimaryHost c = mret (addr host)) as Hfull.
  { intros Hne. unfold Category.PrimaryHost.
    destruct (Category.first_primary (Category.Hosts c)) as [host|] eqn:Hfirst.
    - exists host. split; [|done].
      apply first_primary_Some in Hfirst as (i & Hi & _).
      by eapply list_elem_of_lookup_2.
    - destruct (Category.Hosts c) as [|host rest]; [done|].
      exists host. split; [left|done]. }
  split_and!.
  - split; [done|]. intros Hpanic.
    destruct (Category.Hosts c) as [|host rest] eqn:Hhosts; [done|].
    destruct Hfull as (h' & _ & Hsel); [done|]. rewrite Hsel in Hpanic. done.
  - split; [done|]. intros (host & Hin & _) Hnil. rewrite Hnil in Hin.
    by apply elem_of_nil in Hin.
  - split.
    + intros [p Hp].
      destruct (Category.Hosts c) as [|host rest] eqn:Hhosts; [done|].
      destruct Hfull as (h' & _ & Hsel); [done|]. by rewrite Hsel in Hp.
    + intros Hnil. rewrite (Hempty Hnil). by eexists.
Qed.

(** ** Decimal indices *)

Lemma digit_digit_char (d : Z) : 0 ≤ d ≤ 9 → digit (digit_char d) = Some d.
Proof.
  intros Hd.
  assert (d = 0 ∨ d = 1 ∨ d = 2 ∨ d = 3 ∨ d = 4 ∨ d = 5 ∨ d = 6 ∨ d = 7 ∨ d = 8 ∨ d = 9)
    as Hcases by lia.
  repeat (destruct Hcases as [Hc|Hcases]; [by subst d|]). by subst d.
Qed.

Lemma utoa_cons (fuel : nat) (n : Z) (acc : string) :
  ∃ c rest, utoa fuel n acc = String c rest.
Proof.
  revert n acc. induction fuel as [|fuel IH]; intros n acc; simpl; [by eauto|].
  destruct (n <? 10); [by eauto|]. apply IH.
Qed.

(** Reading back what [utoa] wrote: the digits of [n] are appended to the
    number read so far. *)
Lemma digits_utoa (fuel : nat) (n : Z) (acc : string) :
  0 ≤ n < 10 ^ (Z.of_nat fuel + 1) →
  ∃ d, 0 < d ∧ ∀ v, digits (utoa fuel n acc) v = digits acc (v * 10 ^ d + n).
Proof.
  revert n acc. induction fuel as [|fuel IH]; intros n acc Hn.
  - exists 1. split; [lia|]. intros v. simpl.
    change (10 ^ (0 + 1)) with 10 in Hn.
    rewrite Z.mod_small, digit_digit_char by lia. f_equal; lia.
  - simpl. destruct (Z.ltb_spec n 10) as [Hsmall|Hbig].
    + exists 1. split; [lia|]. intros v. simpl.
      rewrite Z.mod_small, digit_digit_char by lia. f_equal; lia.
    + destruct (IH (n / 10) (String (digit_char (n mod 10)) acc)) as (d & Hd & Hread).
      { split; [apply Z.div_pos; lia|].
        apply Z.div_lt_upper_bound; [lia|].
        replace (Z.of_nat (S fuel) + 1) with (Z.succ (Z.of_nat fuel + 1)) in Hn by lia.
        rewrite Z.pow_succ_r in Hn by lia. lia. }
      exists (d + 1). split; [lia|]. intros v. rewrite Hread. simpl.
      rewrite digit_digit_char by (pose proof (Z.mod_pos_bound n 10); lia).
      f_equal. rewrite Z.pow_add_r, Z.pow_1_r by lia.
      pose proof (Z.div_mod n 10). lia.
Qed.

(** [strconv.Atoi] reads back what [strconv.Itoa] writes for an index. *)
Lemma Atoi_Itoa (x : Z) : 0 ≤ x ≤ int_max → Atoi (Itoa x) = Some x.
Proof.
  intros Hx. unfold Itoa. destruct (Z.ltb_spec x 0) as [|_]; [lia|].
  set (fuel := Z.to_nat (Z.log2 x)).
  destruct (digits_utoa fuel x "") as (d & Hd & Hread).
  { split; [lia|]. subst fuel. rewrite Z2Nat.id by apply Z.log2_nonneg.
    destruct (Z.eq_dec x 0) as [->|Hne]; [done|].
    pose proof (Z.log2_spec x) as [_ Hlt]; [lia|].
    eapply Z.lt_le_trans; [exact Hlt|].
    rewrite <- Z.add_1_r. apply Z.pow_le_mono_l. pose proof (Z.log2_nonneg x). lia. }
  destruct (utoa_cons fuel x "") as (c & rest & Hs).
  specialize (Hread 0). rewrite Hs in Hread |- *. simpl in Hread.
  unfold Atoi.
  destruct (digit c) as [dc|] eqn:Hc; [|done].
  assert (Ascii.eqb c "-" = false ∧ Ascii.eqb c "+" = false) as [-> ->].
  { split; apply Ascii.eqb_neq; intros ->; done. }
  simpl. rewrite Hc, Hread. simpl.
  replace (0 * 10 ^ d + x) with x by lia.
  unfold int_min, int_max in *.
  destruct (Z.leb_spec (- 2 ^ 63) x); [|lia].
  destruct (Z.leb_spec x (2 ^ 63 - 1)); [done|lia].
Qed.

(** ** Selection by category and index *)

Section resolution.
Context `{Terminal}.

Lemma Execute_two_tokens_known (h : HostInfo.t) (t tok : string) (cat : Category.t) :
  HostInfo.Types h !! t = Some cat →
  HostInfo.Execute h [t; tok] =
  match Atoi tok with
  | None => log_Fatal ("Non-integer argument:" +:+ tok)
  | Some x => index (Category.Hosts cat) x ≫= λ host, Host.Execute (addr host) [""]
  end.
Proof.
  intros Ht. unfold HostInfo.Execute. cbn [length Nat.eqb].
  change (index [t; tok] 0) with (mret (M := proc) t).
  rewrite proc_left_id, Ht.
  change (index [t; tok] 1) with (mret (M := proc) tok).
  by rewrite proc_left_id.
Qed.

Lemma Execute_unknown (h : HostInfo.t) (t : string) (rest : list string) :
  (length rest ≤ 1)%nat →
  HostInfo.Types h !! t = None →
  HostInfo.Execute h (t :: rest) =
  ([Stdout ("No such type: " +:+ t +:+ newline);
    Stdout ("Choices are: " +:+ Join (HostType.List (HostInfo.Types h)) ", " +:+ newline)],
   inl (Exit 1)).
Proof.
  intros Hlen Ht. unfold HostInfo.Execute.
  destruct rest as [|tok [|tok' rest]]; [| |simpl in Hlen; lia];
    cbn [length Nat.eqb].
  - change (index [t] 0) with (mret (M := proc) t). by rewrite proc_left_id, Ht.
  - change (index [t; tok] 0) with (mret (M := proc) t). by rewrite proc_left_id, Ht.
Qed.

(** C2. Two tokens, the first naming a category: a second token that
    [strconv.Atoi] reads as an integer within [0, len(hosts)) opens the
    session on the host at that index and on no other; a token that is no
    integer ends the process through [log.Fatal], an integer outside the
    range through the index panic, and in both cases no program is
    started. The decimal rendering of every index of the slice is such a
    token. *)
Theorem Execute_two_tokens_index (h : HostInfo.t) (t tok : string) (cat : Category.t) :
  HostInfo.Types h !! t = Some cat →
  (∀ x, Atoi tok = Some x → 0 ≤ x < Z.of_nat (length (Category.Hosts cat)) →
     ∃ host, Category.Hosts cat !! Z.to_nat x = Some host ∧
             HostInfo.Execute h [t; tok] = Host.Execute (addr host) [""]) ∧
  (Atoi tok = None →
     HostInfo.Execute h [t; tok] = log_Fatal ("Non-integer argument:" +:+ tok) ∧
     fatal (HostInfo.Execute h [t; tok]) ∧
     no_host_action (HostInfo.Execute h [t; tok])) ∧
  (∀ x, Atoi tok = Some x → ¬ (0 ≤ x < Z.of_nat (length (Category.Hosts cat))) →
     HostInfo.Execute h [t; tok] =
       raise (IndexOutOfRange x (length (Category.Hosts cat))) ∧
     fatal (HostInfo.Execute h [t; tok]) ∧
     no_host_action (HostInfo.Execute h [t; tok])) ∧
  (∀ i host, Category.Hosts cat !! i = Some host → Z.of_nat i ≤ int_max →
     HostInfo.Execute h [t; Itoa (Z.of_nat i)] = Host.Execute (addr host) [""]).
Proof.
  intros Ht. split_and!.
  - intros x Hx Hrange. rewrite (Execute_two_tokens_known _ _ _ _ Ht), Hx.
    destruct (index_in_range (Category.Hosts cat) x Hrange) as (host & Hhost & ->).
    exists host. by rewrite proc_left_id.
  - intros Hx. rewrite (Execute_two_tokens_known _ _ _ _ Ht), Hx.
    split_and!; [done| |].
    + split; [done|]. by eexists.
    + intros path argv Hin. apply list_elem_of_singleton in Hin. done.
  - intros x Hx Hrange. rewrite (Execute_two_tokens_known _ _ _ _ Ht), Hx.
    rewrite index_out_of_range by done.
    split_and!; [done..|]. intros path argv Hin. by apply elem_of_nil in Hin.
  - intros i host Hi Hmax. rewrite (Execute_two_tokens_known _ _ _ _ Ht).
    rewrite Atoi_Itoa by lia. by rewrite (index_lookup _ _ _ Hi), proc_left_id.
Qed.


(** C8, as the code has it. More than two tokens match no case of the
    switch: nothing is printed, no program is started and the function
    returns, whatever the tokens are. *)
Theorem Execute_more_than_two_tokens (h : HostInfo.t) (args : list string) :
  (2 < length args)%nat → HostInfo.Execute h args = mret tt.
Proof.
  intros Hlen. destruct args as [|a [|b [|c args]]]; simpl in Hlen; [lia..|done].
Qed.
End resolution.

(** ** Lookup by name *)


(** ** Descent through the repository tree *)

Lemma descend_document (repo : Repo.t) (arg : string) (rest : list string) (info : Info.t) :
  Repo.Info repo !! arg = Some info →
  Repo.descend repo (arg :: rest) = inl info.
Proof. intros Harg. simpl. by rewrite Harg. Qed.

Lemma descend_subrepo (repo sub : Repo.t) (arg : string) (rest : list string) :
  Repo.Info repo !! arg = None →
  Repo.Subrepos repo !! arg = Some sub →
  Repo.descend repo (arg :: rest) = Repo.descend sub rest.
Proof. intros Hinfo Hsub. simpl. by rewrite Hinfo, Hsub. Qed.

Lemma descend_unmatched (repo : Repo.t) (arg : string) (rest : list string) :
  Repo.Info repo !! arg = None →
  Repo.Subrepos repo !! arg = None →
  Repo.descend repo (arg :: rest) = inr Repo.zero.
Proof. intros Hinfo Hsub. simpl. by rewrite Hinfo, Hsub. Qed.

Lemma Keys_zero : Repo.Keys Repo.zero = [] ∧ Repo.SubrepoKeys Repo.zero = [].
Proof. done. Qed.

(** The two listings are in ascending order and hold the identity of every
    document, respectively of every sub-repository, of the node. *)
Lemma Keys_sorted (r : Repo.t) :
  StronglySorted String.le (Repo.Keys r) ∧
  StronglySorted String.le (Repo.SubrepoKeys r) ∧
  (∀ key info, Repo.Info r !! key = Some info → Info.ID info ∈ Repo.Keys r) ∧
  (∀ key sub, Repo.Subrepos r !! key = Some sub → Repo.Key sub ∈ Repo.SubrepoKeys r).
Proof.
  unfold Repo.Keys, Repo.SubrepoKeys.
  split_and!; [apply sort_Strings_sorted..| |].
  - intros key info Hkey. rewrite sort_Strings_perm.
    apply list_elem_of_fmap. exists info. split; [done|].
    apply list_elem_of_fmap. exists (key, info). split; [done|].
    by apply elem_of_map_to_list.
  - intros key sub Hkey. rewrite sort_Strings_perm.
    apply list_elem_of_fmap. exists sub. split; [done|].
    apply list_elem_of_fmap. exists (key, sub). split; [done|].
    by apply elem_of_map_to_list.
Qed.

Section listing.
Context `{Terminal} `{Documents}.

(** A token that names neither a document nor a sub-repository of the
    node reached so far: the failed lookup leaves the zero [Repo] in the
    variable that is listed after the loop, and nothing is printed. *)
Lemma Execute_unmatched (r : Repo.t) (first arg : string) (rest : list string) :
  Repo.Info r !! arg = None →
  Repo.Subrepos r !! arg = None →
  Repo.Execute r (first :: arg :: rest) = mret tt.
Proof.
  intros Hinfo Hsub. unfold Repo.Execute.
  change (slice_from (first :: arg :: rest) 1) with (mret (M := proc) (arg :: rest)).
  rewrite proc_left_id, (descend_unmatched _ _ _ Hinfo Hsub).
  by destruct Keys_zero as [-> ->].
Qed.

(** All tokens name sub-repositories: the node they lead to is listed,
    sub-repositories first. *)
Lemma Execute_listing (r : Repo.t) (first : string) (args : list string) (repo : Repo.t) :
  Repo.descend r args = inr repo →
  Repo.Execute r (first :: args) =
    (range (Repo.SubrepoKeys repo) (λ key, fmt_Println (SprintfFunc [FgBlue; Bold] key)) ;;
     range (Repo.Keys repo) (λ key, fmt_Println key)).
Proof.
  intros Hdescend. unfold Repo.Execute.
  change (slice_from (first :: args) 1) with (mret (M := proc) args).
  by rewrite proc_left_id, Hdescend.
Qed.
End listing.

(** C5, at a token that matches nothing. The node [infra] holds the
    document [db] and the sub-repository [cluster6], which is what the
    resolver lists when no token follows the name of the repository; with
    the unknown token [nope] it lists nothing at all. *)
Theorem Execute_unmatched_token_lists_nothing :
  @Repo.Execute Sample.plain Sample.loader Sample.infra ["infra"] =
    ([Stdout ("cluster6" +:+ newline); Stdout ("db" +:+ newline)], inr tt) ∧
  Repo.Info Sample.infra !! "nope" = None ∧
  Repo.Subrepos Sample.infra !! "nope" = None ∧
  @Repo.Execute Sample.plain Sample.loader Sample.infra ["infra"; "nope"] = ([], inr tt).
Proof.
  split_and!; [by vm_compute|by vm_compute|by vm_compute|].
  by apply (@Execute_unmatched Sample.plain Sample.loader).
Qed.

(** ** The directory walk *)

Lemma trace_bind {A B} (m : proc A) (f : A → proc B) :
  trace (m ≫= f) =
  trace m ++ match outcome m with inr a => trace (f a) | inl _ => [] end.
Proof.
  destruct m as [t [h|a]]; simpl; [by rewrite app_nil_r|].
  unfold mbind, proc_bind. by destruct (f a).
Qed.

Lemma proc_bind_returns {A B} (m : proc A) (f : A → proc B) t a t' b :
  m = (t, inr a) → f a = (t', inr b) → m ≫= f = (t ++ t', inr b).
Proof. intros -> Hf. unfold mbind, proc_bind. by rewrite Hf. Qed.

Section walk_stops.
Context (walkFn : string → ptr FileInfo → error → proc error).
Context (rec : string → fsnode → proc error).

(** When the visit of an entry makes the loop over the names return, the
    names after it play no part. *)
Lemma walk_names_stop (path : string) (entry : fsnode) (post : list fsnode) :
  outcome (walk_names walkFn rec path [entry]) ≠ inr None →
  walk_names walkFn rec path (entry :: post) = walk_names walkFn rec path [entry].
Proof.
  cbn [walk_names]. unfold mbind, proc_bind, mret, proc_ret.
  destruct entry as [name|name entries|name text].
  - destruct (rec _ _) as [t [h|[e|]]]; simpl; [done| |done].
    by destruct e.
  - destruct (rec _ _) as [t [h|[e|]]]; simpl; [done| |done].
    by destruct e.
  - destruct (walkFn _ _ _) as [t [h|[[|text']|]]]; simpl; done.
Qed.

Lemma walk_names_stop_app (path : string) (pre : list fsnode) (entry : fsnode)
    (post : list fsnode) :
  outcome (walk_names walkFn rec path [entry]) ≠ inr None →
  walk_names walkFn rec path (pre ++ entry :: post) =
  walk_names walkFn rec path (pre ++ [entry]).
Proof.
  intros Hstop. induction pre as [|first pre IH].
  - by apply walk_names_stop.
  - cbn [app walk_names]. rewrite IH.
    by destruct first.
Qed.
End walk_stops.

(** The same for the whole walk of a directory. *)
Lemma Walk_stop (walkFn : string → ptr FileInfo → error → proc error)
    (root name : string) (pre : list fsnode) (entry : fsnode) (post : list fsnode) :
  outcome (walk_names walkFn (walk walkFn) root [entry]) ≠ inr None →
  Walk walkFn root (Dir name (inr (pre ++ entry :: post))) =
  Walk walkFn root (Dir name (inr (pre ++ [entry]))).
Proof.
  intros Hstop. unfold Walk. cbn [walk].
  by rewrite (walk_names_stop_app _ _ _ _ _ post Hstop).
Qed.

(** What the walk function of a repository does. *)
Lemma Repo_walk_error (root path : string) (info : ptr FileInfo) (e : error_value) :
  Repo.walk root path info (Some e) =
  ([Logged ("walk error:  " +:+ error_text e)], inr (Some e)).
Proof. done. Qed.

Lemma Repo_walk_hidden (root path : string) (info : ptr FileInfo) :
  HasPrefix (Base path) "." = true →
  Repo.walk root path info None = mret (Some SkipDir).
Proof. intros Hhidden. unfold Repo.walk. by rewrite Hhidden. Qed.

Lemma Repo_walk_returns (root path : string) (info : FileInfo) (err : error) :
  ∃ t e, Repo.walk root path (addr info) err = (t, inr e) ∧
         ∀ g, g ∈ Repo.started t →
              (g = go_loadInfo path ∧ (IsDir info = false ∨ root = path)) ∨
              (g = go_loadSubrepo path ∧ IsDir info = true ∧ root ≠ path ∧
               e = Some SkipDir).
Proof.
  destruct err as [e|]; [rewrite Repo_walk_error; do 2 eexists; split; [done|]|].
  { intros g Hg. by apply elem_of_nil in Hg. }
  unfold Repo.walk. destruct (HasPrefix (Base path) ".").
  { do 2 eexists. split; [done|]. intros g Hg. by apply elem_of_nil in Hg. }
  cbn [deref addr]. rewrite proc_left_id. unfold Repo.isSubrepo.
  destruct (IsDir info) eqn:Hdir; simpl.
  - destruct (String.eqb_spec root path) as [Heq|Hne].
    + destruct (HasSuffix path ".yaml"); do 2 eexists; (split; [done|]); intros g Hg.
      * apply list_elem_of_singleton in Hg. left. auto.
      * by apply elem_of_nil in Hg.
    + do 2 eexists. split; [done|]. intros g Hg.
      apply list_elem_of_singleton in Hg. right. auto.
  - destruct (HasSuffix path ".yaml"); do 2 eexists; (split; [done|]); intros g Hg.
    + apply list_elem_of_singleton in Hg. left. auto.
    + by apply elem_of_nil in Hg.
Qed.

Lemma length_append (s1 s2 : string) :
  String.length (s1 +:+ s2) = (String.length s1 + String.length s2)%nat.
Proof. induction s1 as [|c s1 IH]; simpl; [done|]. by rewrite IH. Qed.

(** The path of an entry differs from the path of its directory, save for
    the entry [.] of the directory [.], which is hidden. *)
Lemma Join_below (root name : string) :
  name ≠ "" →
  filepath_Join root name ≠ root ∨
  HasPrefix (Base (filepath_Join root name)) "." = true.
Proof.
  intros Hname. unfold filepath_Join.
  destruct (String.eqb_spec root "/") as [->|Hroot].
  { left. destruct name as [|c name]; [done|]. by cbv. }
  destruct (String.eqb_spec root ".") as [->|Hdot].
  { destruct (String.eqb_spec name ".") as [->|Hne]; [by right|by left]. }
  left. intros Heq. apply (f_equal String.length) in Heq.
  rewrite !length_append in Heq. simpl in Heq. lia.
Qed.

Lemma started_app (t1 t2 : list event) :
  Repo.started (t1 ++ t2) = Repo.started t1 ++ Repo.started t2.
Proof. apply omap_app. Qed.

(** The visit of one entry of the root returns, and starts at most the
    loader of that entry. *)
Lemma walk_entry_started (root filename : string) (entry : fsnode) :
  (IsDir (Lstat entry) = true →
   filename ≠ root ∨ HasPrefix (Base filename) "." = true) →
  ∃ t e, walk (Repo.walk root) filename entry = (t, inr e) ∧
         ∀ g, g ∈ Repo.started t →
              g = go_loadInfo filename ∨ g = go_loadSubrepo filename.
Proof.
  intros Hbelow.
  assert (∀ info err, ∃ t e,
            Repo.walk root filename (addr info) err = (t, inr e) ∧
            ∀ g, g ∈ Repo.started t →
                 g = go_loadInfo filename ∨ g = go_loadSubrepo filename) as Hvisit.
  { intros info err.
    destruct (Repo_walk_returns root filename info err) as (t & e & -> & Hg).
    exists t, e. split; [done|]. intros g Hin.
    destruct (Hg g Hin) as [[-> _]|[-> _]]; auto. }
  destruct entry as [name|name [text|names]|name text]; cbn [walk]; [apply Hvisit| | |apply Hvisit].
  - rewrite Repo_walk_error. do 2 eexists. split; [done|].
    intros g Hg. by apply elem_of_nil in Hg.
  - destruct (HasPrefix (Base filename) ".") eqn:Hhidden.
    + rewrite Repo_walk_hidden by done. do 2 eexists. split; [done|].
      intros g Hg. by apply elem_of_nil in Hg.
    + destruct Hbelow as [Hne|?]; [done| |done].
      unfold Repo.walk. rewrite Hhidden. cbn [deref addr]. rewrite proc_left_id.
      unfold Repo.isSubrepo.
      destruct (String.eqb_spec root filename) as [Heq|_]; [done|].
      do 2 eexists. split; [done|]. intros g Hg.
      apply list_elem_of_singleton in Hg. auto.
Qed.

Lemma walk_names_started (root : string) (names : list fsnode) :
  Forall (λ entry, IsDir (Lstat entry) = true → node_name entry ≠ "") names →
  ∃ t e, walk_names (Repo.walk root) (walk (Repo.walk root)) root names = (t, inr e) ∧
         ∀ path, go_loadSubrepo path ∈ Repo.started t →
                 ∃ entry, entry ∈ names ∧ path = filepath_Join root (node_name entry).
Proof.
  induction 1 as [|entry names Hentry _ (t' & e' & IH & Hpaths)].
  { do 2 eexists. split; [done|]. intros path Hg. by apply elem_of_nil in Hg. }
  assert (∀ t, (∀ g, g ∈ Repo.started t →
                     g = go_loadInfo (filepath_Join root (node_name entry)) ∨
                     g = go_loadSubrepo (filepath_Join root (node_name entry))) →
               ∀ t2, (t2 = [] ∨ t2 = t') →
               ∀ path, go_loadSubrepo path ∈ Repo.started (t ++ t2) →
               ∃ entry', entry' ∈ entry :: names ∧
                         path = filepath_Join root (node_name entry')) as Hcombine.
  { intros t Ht t2 Ht2 path Hin. rewrite started_app in Hin.
    apply elem_of_app in Hin as [Hin|Hin].
    - destruct (Ht _ Hin) as [?|Heq]; [done|]. injection Heq as ->.
      exists entry. split; [left|done].
    - destruct Ht2 as [-> | ->]; [by apply elem_of_nil in Hin|].
      destruct (Hpaths _ Hin) as (entry' & Hin' & ->).
      exists entry'. split; [by right|done]. }
  assert (∀ t (e : error) (stop : bool),
            (∀ g, g ∈ Repo.started t →
                  g = go_loadInfo (filepath_Join root (node_name entry)) ∨
                  g = go_loadSubrepo (filepath_Join root (node_name entry))) →
            ∃ t0 e0,
              (t, inr e) ≫= (λ err : error,
                 if stop then mret err
                 else walk_names (Repo.walk root) (walk (Repo.walk root)) root names)
              = (t0, inr e0) ∧
              ∀ path, go_loadSubrepo path ∈ Repo.started t0 →
                      ∃ entry', entry' ∈ entry :: names ∧
                                path = filepath_Join root (node_name entry')) as Hnext.
  { intros t e stop Ht. unfold mbind, proc_bind. destruct stop.
    - do 2 eexists. split; [done|]. apply (Hcombine t Ht []). by left.
    - rewrite IH. do 2 eexists. split; [done|]. apply (Hcombine t Ht t'). by right. }
  assert (∀ kind, kind = entry → IsDir (Lstat kind) = true →
            filepath_Join root (node_name entry) ≠ root ∨
            HasPrefix (Base (filepath_Join root (node_name entry))) "." = true) as Hbelow.
  { intros kind -> Hdir. by apply Join_below, Hentry. }
  cbn [walk_names].
  destruct entry as [name|name entries|name text]; cbn [node_name] in *.
  - destruct (walk_entry_started root (filepath_Join root name) (File name))
      as (t & e & -> & Hg); [by apply Hbelow|].
    destruct e as [e|]; [apply (Hnext t (Some e) true Hg)|apply (Hnext t None false Hg)].
  - destruct (walk_entry_started root (filepath_Join root name) (Dir name entries))
      as (t & e & -> & Hg); [by apply Hbelow|].
    destruct e as [[|text]|];
      [apply (Hnext t (Some SkipDir) false Hg)|apply (Hnext t (Some (Error text)) true Hg)
      |apply (Hnext t None false Hg)].
  - rewrite Repo_walk_error.
    apply (Hnext _ (Some (Error text)) true).
    intros g Hg. by apply elem_of_nil in Hg.
Qed.

(** ** Building a node *)

Section fsnode_induction.
Variable P : fsnode → Prop.
Hypothesis on_File : ∀ name, P (File name).
Hypothesis on_unreadable : ∀ name text, P (Dir name (inl text)).
Hypothesis on_Dir : ∀ name names, Forall P names → P (Dir name (inr names)).
Hypothesis on_NoStat : ∀ name text, P (NoStat name text).

(** Induction on the file system, with the hypothesis for every entry of a
    directory. *)
Fixpoint fsnode_nested_ind (info : fsnode) : P info :=
  match info with
  | File name => on_File name
  | Dir name (inl text) => on_unreadable name text
  | Dir name (inr names) =>
      on_Dir name names
        ((fix entries (l : list fsnode) : Forall P l :=
            match l with
            | [] => @List.Forall_nil _ P
            | entry :: l' =>
                @List.Forall_cons _ P entry l' (fsnode_nested_ind entry) (entries l')
            end) names)
  | NoStat name text => on_NoStat name text
  end.
End fsnode_induction.

(** The walk of a repository never stops the process. *)
Lemma walk_returns (root : string) (info : fsnode) :
  ∀ path, ∃ t e, walk (Repo.walk root) path info = (t, inr e).
Proof.
  induction info as [name|name text|name names IH|name text] using fsnode_nested_ind;
    intros path; cbn [walk].
  - destruct (Repo_walk_returns root path (Lstat (File name)) None) as (t & e & -> & _).
    by eauto.
  - rewrite Repo_walk_error. by eauto.
  - destruct (Repo_walk_returns root path (Lstat (Dir name (inr names))) None)
      as (t & e & -> & _).
    destruct e as [e|]; [by eauto|].
    assert (∃ t' e', walk_names (Repo.walk root) (walk (Repo.walk root)) path names
                     = (t', inr e')) as (t' & e' & Hnames); [|by erewrite proc_bind_returns; eauto].
    clear t. induction IH as [|entry names Hentry _ (t' & e' & IH)]; [by eauto|].
    cbn [walk_names].
    assert (∀ t (e : error) (stop : bool), ∃ t0 e0,
              (t, inr e) ≫= (λ err : error,
                 if stop then mret err
                 else walk_names (Repo.walk root) (walk (Repo.walk root)) path names)
              = (t0, inr e0)) as Hnext.
    { intros t e stop. unfold mbind, proc_bind. destruct stop; [by eauto|].
      rewrite IH. by eauto. }
    destruct entry as [name'|name' entries|name' text]; cbn [node_name].
    + destruct (Hentry (filepath_Join path name')) as (t & e & ->).
      destruct e as [e|]; [apply (Hnext t (Some e) true)|apply (Hnext t None false)].
    + destruct (Hentry (filepath_Join path name')) as (t & e & ->).
      destruct e as [[|text]|];
        [apply (Hnext t (Some SkipDir) false)|apply (Hnext t (Some (Error text)) true)
        |apply (Hnext t None false)].
    + rewrite Repo_walk_error. apply (Hnext _ (Some (Error text)) true).
  - destruct (Repo_walk_returns root path (Lstat (NoStat name text)) None) as (t & e & -> & _).
    by eauto.
Qed.

Lemma Walk_returns (root : string) (info : fsnode) :
  ∃ t e, Walk (Repo.walk root) root info = (t, inr e).
Proof.
  assert (∀ (t : list event) (e : error), ∃ (t' : list event) (e' : error),
            ((t, inr e) : proc error) ≫= (λ err : error,
               match err with
               | Some SkipDir => mret None
               | _ => mret err
               end) = (t', inr e')) as Hlast.
  { intros t e. unfold mbind, proc_bind. destruct e as [[|text]|]; by eauto. }
  unfold Walk. destruct info as [name|name entries|name text].
  - destruct (walk_returns root (File name) root) as (t & e & ->). apply Hlast.
  - destruct (walk_returns root (Dir name entries) root) as (t & e & ->). apply Hlast.
  - rewrite Repo_walk_error. apply Hlast.
Qed.

Section building.
Context `{Documents}.

Lemma NewRepo_unfold (p : string) (info : fsnode) :
  Repo.NewRepo p info =
  Repo.NewRepo_at
    match info with
    | Dir _ (inr names) =>
        (λ entry, let path := filepath_Join (getPath p) (node_name entry) in
                  (path, Repo.NewRepo path entry)) <$> names
    | _ => []
    end
    p info.
Proof. by destruct info. Qed.




End building.

Section stopping.
Context `{Documents}.

Lemma NewRepo_in_app (built more : list (string * proc Repo.t)) (path : string) :
  path ∈ built.*1 →
  Repo.NewRepo_in (built ++ more) path = Repo.NewRepo_in built path.
Proof.
  induction built as [|[q nr] built IH]; intros Hin; [by apply elem_of_nil in Hin|].
  cbn [app Repo.NewRepo_in]. destruct (String.eqb_spec q path) as [|Hne]; [done|].
  apply IH. cbn in Hin. apply elem_of_cons in Hin as [?|?]; [congruence|done].
Qed.

Lemma wait_agree (built built' : list (string * proc Repo.t)) (gs : list goroutine) :
  (∀ path, go_loadSubrepo path ∈ gs →
           Repo.NewRepo_in built path = Repo.NewRepo_in built' path) →
  ∀ r, Repo.wait built gs r = Repo.wait built' gs r.
Proof.
  induction gs as [|[path|path] gs IH]; intros Hsame r; cbn [Repo.wait]; [done| |].
  - destruct (Repo.loadInfo r path) as [t [h|r']]; [done|].
    unfold mbind, proc_bind. rewrite IH; [done|].
    intros path' Hin. apply Hsame. by right.
  - unfold Repo.loadSubrepo. rewrite (Hsame path) by left.
    destruct (Repo.NewRepo_in built' path ≫= _) as [t [h|r']]; [done|].
    unfold mbind, proc_bind. rewrite IH; [done|].
    intros path' Hin. apply Hsame. by right.
Qed.

(** The goroutines started by the walk of a directory load entries of
    that directory. *)
Lemma Walk_started (root name : string) (names : list fsnode) (path : string) :
  Forall (λ entry, IsDir (Lstat entry) = true → node_name entry ≠ "") names →
  go_loadSubrepo path
    ∈ Repo.started (trace (Walk (Repo.walk root) root (Dir name (inr names)))) →
  ∃ entry, entry ∈ names ∧ path = filepath_Join root (node_name entry).
Proof.
  intros Hnames. unfold Walk. cbn [walk].
  destruct (Repo_walk_returns root root (Lstat (Dir name (inr names))) None)
    as (t & e & -> & Hroot).
  destruct (walk_names_started root names Hnames) as (t' & e' & Hwalk & Hpaths).
  rewrite !trace_bind, !started_app. cbn [trace outcome fst snd].
  intros [[Hin|Hin]%elem_of_app|Hin]%elem_of_app.
  - destruct (Hroot _ Hin) as [[? _]|(_ & _ & ? & _)]; done.
  - destruct e as [e|]; [by apply elem_of_nil in Hin|].
    rewrite Hwalk in Hin. by apply Hpaths.
  - destruct e as [e|].
    + unfold mbind, proc_bind in Hin. cbn in Hin.
      destruct e; by apply elem_of_nil in Hin.
    + unfold mbind, proc_bind in Hin. rewrite Hwalk in Hin. cbn in Hin.
      destruct e' as [[|text]|]; by apply elem_of_nil in Hin.
Qed.

(** When the visit of an entry makes the walk of the directory return, the
    node that is built is the one of the directory that ends with that
    entry. *)
Lemma NewRepo_stop (p name : string) (pre : list fsnode) (entry : fsnode)
    (post : list fsnode) :
  Forall (λ entry, IsDir (Lstat entry) = true → node_name entry ≠ "") (pre ++ [entry]) →
  outcome (walk_names (Repo.walk (getPath p)) (walk (Repo.walk (getPath p)))
                      (getPath p) [entry]) ≠ inr None →
  Repo.NewRepo p (Dir name (inr (pre ++ entry :: post))) =
  Repo.NewRepo p (Dir name (inr (pre ++ [entry]))).
Proof.
  intros Hnames Hstop. rewrite !NewRepo_unfold. unfold Repo.NewRepo_at. cbn [Repo.root].
  rewrite (Walk_stop _ _ _ _ _ post Hstop).
  set (walked := Walk _ _ _).
  set (at_entry := λ entry : fsnode,
         (filepath_Join (getPath p) (node_name entry),
          Repo.NewRepo (filepath_Join (getPath p) (node_name entry)) entry)).
  rewrite (wait_agree (at_entry <$> pre ++ entry :: post) (at_entry <$> pre ++ [entry]));
    [done|].
  intros path Hin. apply (Walk_started _ _ _ _ Hnames) in Hin as (entry' & Hin & ->).
  rewrite (cons_middle entry pre post), app_assoc, fmap_app.
  apply NewRepo_in_app. rewrite <- list_fmap_compose.
  apply list_elem_of_fmap. by exists entry'.
Qed.
End stopping.

(** ** Loading documents and walking directories *)

Section loading.
Context `{Documents}.

(** A document that fails to load is logged and filed all the same: the
    value handed back with the error is stored under its identity, in the
    control map or in the document map. *)
Lemma loadInfo_files_failed_document (r : Repo.t) (path : string)
    (info : Info.t) (e : string) :
  LoadInfo path = (info, Some e) →
  ∃ r', Repo.loadInfo r path = ([Logged ("Failed to load info:  " +:+ e)], inr r') ∧
        if HasPrefix (asKey path) "_"
        then Repo.Control r' !! Info.ID info = Some info ∧ Repo.Info r' = Repo.Info r
        else Repo.Info r' !! Info.ID info = Some info ∧ Repo.Control r' = Repo.Control r.
Proof.
  intros Hload. unfold Repo.loadInfo. rewrite Hload.
  destruct (HasPrefix (asKey path) "_"); eexists; (split; [done|]);
    cbn [Repo.Info Repo.Control]; by rewrite lookup_insert_eq.
Qed.

(** A hidden regular file ends the walk of its directory: the node is
    the one of the directory that ends with that file. *)
Lemma hidden_file_ends_walk (p name : string) (pre : list fsnode) (hidden : string)
    (post : list fsnode) :
  Forall (λ entry, node_name entry ≠ "") pre →
  HasPrefix (Base (filepath_Join (getPath p) hidden)) "." = true →
  Repo.NewRepo p (Dir name (inr (pre ++ File hidden :: post))) =
  Repo.NewRepo p (Dir name (inr (pre ++ [File hidden]))).
Proof.
  intros Hnames Hhidden. apply NewRepo_stop.
  - apply Forall_app. split; [|by repeat constructor].
    eapply Forall_impl; [exact Hnames|]. by intros entry Hentry _.
  - cbn [walk_names walk node_name]. by rewrite Repo_walk_hidden.
Qed.

End loading.

(** C3, at a malformed document. The directory holds the marker, the
    malformed [bad.yaml] and the well-formed [db.yaml]. The failure is
    logged, and the node that is built has an entry for the failed load in
    its document map, next to the one of [db.yaml]. *)
Theorem NewRepo_files_failed_document :
  @LoadInfo Sample.loader "infra/bad.yaml" =
    (Info.zero, Some "yaml: did not find expected key") ∧
  @Repo.loadInfo Sample.loader (Repo.mk "infra" ∅ ∅ ∅ "infra") "infra/bad.yaml" =
    ([Logged "Failed to load info:  yaml: did not find expected key"],
     inr (Repo.mk "infra" {[ "" := Info.zero ]} ∅ ∅ "infra")) ∧
  ∃ t r, @Repo.NewRepo Sample.loader "infra" Sample.with_bad_document = (t, inr r) ∧
         Logged "Failed to load info:  yaml: did not find expected key" ∈ t ∧
         Repo.Info r !! "" = Some Info.zero ∧
         Repo.Keys r = [""; "db"] ∧
         (map_to_list (Repo.Control r)).*1 = ["_repo"].
Proof.
  split_and!; [done|by vm_compute|].
  do 2 eexists. split; [by vm_compute|].
  split_and!; [|by vm_compute..]. by repeat constructor.
Qed.


(** C6, at a directory with a hidden regular file. With the hidden
    directory [.git] the node holds the document [db] and the
    sub-repository [west]; with the hidden file [.gitignore], which sorts
    before them, the walk starts no loader and the node is empty. *)
Theorem NewRepo_hidden_file_hides_siblings :
  Sample.names_sorted Sample.with_hidden_directory = true ∧
  (∃ t r, @Repo.NewRepo Sample.loader "infra" Sample.with_hidden_directory = (t, inr r) ∧
          Repo.Keys r = ["db"] ∧ Repo.SubrepoKeys r = ["west"] ∧
          (map_to_list (Repo.Control r)).*1 = ["_repo"]) ∧
  Sample.names_sorted Sample.with_hidden_file = true ∧
  @Repo.NewRepo Sample.loader "infra" Sample.with_hidden_file =
    ([], inr (Repo.mk "infra" ∅ ∅ ∅ "infra")).
Proof.
  split_and!; [by vm_compute| |by vm_compute..].
  do 2 eexists. split; [by vm_compute|]. by vm_compute.
Qed.

(** ** The sample inventory, end to end *)

(** C8, at the sample inventory: [standby 1] opens the session on
    [db1.cluster3.company.net]; with a third token nothing happens. *)
Lemma Execute_third_token_changes_outcome :
  @HostInfo.Execute Sample.plain Sample.db ["standby"; "1"] =
    ([Ran "/usr/bin/ssh" ["/usr/bin/ssh"; "db1.cluster3.company.net"; "-A"; "-t"; ""]],
     inr tt) ∧
  @HostInfo.Execute Sample.plain Sample.db ["standby"; "1"; "uptime"] = ([], inr tt) ∧
  @HostInfo.Execute Sample.plain Sample.db ["standby"; "1"; "uptime"] ≠
  @HostInfo.Execute Sample.plain Sample.db ["standby"; "1"].
Proof. split_and!; [by vm_compute..|]. by vm_compute. Qed.


(** [ro] selects its only primary host, [task], which has none, its first
    host. *)
Lemma PrimaryHost_first_primary_or_first_witness :
  Category.PrimaryHost Sample.ro = mret (addr Sample.db4) ∧
  @HostInfo.Execute Sample.plain Sample.db ["ro"] =
    @Host.Execute Sample.plain (addr Sample.db4) [""] ∧
  Category.PrimaryHost Sample.task = mret (addr (Sample.host "taskdb1.cluster6.company.net")).
Proof.
  destruct (@PrimaryHost_first_primary_or_first Sample.plain Sample.ro) as [Hprimary _].
  destruct (Hprimary Sample.db4) as (i & host & Hi & _ & Hbefore & Hsel & Hexec).
  { do 3 right. left. }
  { reflexivity. }
  destruct (@PrimaryHost_first_primary_or_first Sample.plain Sample.task) as [_ Hfirst].
  destruct Hfirst as (host' & Hhost' & Hsel' & _).
  { discriminate. }
  { intros h0 Hin. apply elem_of_cons in Hin as [->|Hin]; [reflexivity|].
    apply list_elem_of_singleton in Hin as ->. reflexivity. }
  injection Hhost' as <-.
  assert (host = Sample.db4) as ->.
  { destruct i as [|[|[|[|i]]]]; simpl in Hi.
    - specialize (Hbefore 0%nat); injection Hi as <-. discriminate.
    - injection Hi as <-. discriminate.
    - injection Hi as <-. discriminate.
    - by injection Hi.
    - discriminate. }
  split_and!; [exact Hsel| |exact Hsel'].
  apply Hexec. reflexivity.
Defined.

Lemma PrimaryHost_total_iff_nonempty_witness :
  Category.PrimaryHost Category.zero = raise (IndexOutOfRange 0 0) ∧
  ∃ host, host ∈ Category.Hosts Sample.wal ∧
          Category.PrimaryHost Sample.wal = mret (addr host).
Proof.
  split.
  - apply (proj1 (proj1 (PrimaryHost_total_iff_nonempty Category.zero))). reflexivity.
  - apply (proj1 (proj1 (proj2 (PrimaryHost_total_iff_nonempty Sample.wal)))). discriminate.
Defined.

(** [standby 1] selects [db1.cluster3.company.net]; [task 5] is out of
    range and [task five] is no integer. *)
Lemma Execute_two_tokens_index_witness :
  @HostInfo.Execute Sample.plain Sample.db ["standby"; "1"] =
    @Host.Execute Sample.plain (addr Sample.db1_cluster3) [""] ∧
  fatal (@HostInfo.Execute Sample.plain Sample.db ["task"; "5"]) ∧
  no_host_action (@HostInfo.Execute Sample.plain Sample.db ["task"; "5"]) ∧
  fatal (@HostInfo.Execute Sample.plain Sample.db ["task"; "five"]) ∧
  @HostInfo.Execute Sample.plain Sample.db ["task"; Itoa 1] =
    @Host.Execute Sample.plain (addr (Sample.host "taskdb2.cluster6.company.net")) [""].
Proof.
  destruct (@Execute_two_tokens_index Sample.plain Sample.db "standby" "1" Sample.standby)
    as (Hin & _); [reflexivity|].
  destruct (Hin 1) as (host & Hhost & Hexec); [reflexivity|simpl; lia|].
  injection Hhost as <-.
  destruct (@Execute_two_tokens_index Sample.plain Sample.db "task" "5" Sample.task)
    as (_ & _ & Hout & Hitoa); [reflexivity|].
  destruct (Hout 5) as (_ & Hfatal & Hnone); [reflexivity|simpl; lia|].
  destruct (@Execute_two_tokens_index Sample.plain Sample.db "task" "five" Sample.task)
    as (_ & Hnon & _); [reflexivity|].
  destruct Hnon as (_ & Hfatal' & _); [reflexivity|].
  split_and!; [exact Hexec|exact Hfatal|exact Hnone|exact Hfatal'|].
  apply (Hitoa 1%nat); [reflexivity|]. unfold int_max. simpl. lia.
Defined.


Lemma Execute_more_than_two_tokens_witness :
  @HostInfo.Execute Sample.plain Sample.db ["standby"; "1"; "uptime"] = mret tt.
Proof. apply (@Execute_more_than_two_tokens Sample.plain). simpl. lia. Defined.



(** * Further properties of the code *)

(** ** Listings *)

Lemma prints_bind (m k : proc unit) : prints m → prints k → prints (m ;; k).
Proof.
  intros (t & -> & Ht) (t' & -> & Ht'). exists (t ++ t').
  split; [done|]. by apply Forall_app.
Qed.

Lemma prints_Print (s : string) : prints (fmt_Print s).
Proof. exists [Stdout s]. split; [done|]. by repeat constructor. Qed.

Lemma prints_Println (s : string) : prints (fmt_Println s).
Proof. exists [Stdout (s +:+ newline)]. split; [done|]. by repeat constructor. Qed.

Lemma prints_ret : prints (mret tt).
Proof. exists []. by split. Qed.

Lemma range_prints {A} (l : list A) (body : A → proc unit) :
  (∀ a, prints (body a)) → prints (range l body).
Proof.
  intros Hbody. induction l as [|a l IH]; cbn [range]; [apply prints_ret|].
  by apply prints_bind.
Qed.

Lemma range_from_prints {A} (l : list A) (body : Z → A → proc unit) (i : Z) :
  (∀ i a, prints (body i a)) → prints (range_from i l body).
Proof.
  intros Hbody. revert i. induction l as [|a l IH]; intros i; cbn [range_from];
    [apply prints_ret|].
  by apply prints_bind.
Qed.

Section listings.
Context `{Terminal}.

Lemma PrintType_prints (types : HostType.t) : prints (HostType.PrintType types).
Proof.
  unfold HostType.PrintType. apply range_prints. intros key.
  repeat first
    [ apply prints_bind | apply prints_Println | apply prints_Print | apply prints_ret ].
  apply range_from_prints. intros x host.
  repeat first
    [ apply prints_bind | apply prints_Println | apply prints_Print | apply prints_ret ].
  - destruct (Host.Primary host); [apply prints_Print|apply prints_ret].
  - destruct (negb _); [apply prints_Print|apply prints_ret].
Qed.

(** X1. The listing of a document is a listing and nothing else:
    [PrintType] reaches its end for every document and writes to the
    standard output only, and [HostInfo.Execute] without tokens does just
    that. *)
Theorem PrintType_only_prints (h : HostInfo.t) :
  HostInfo.Execute h [] = HostType.PrintType (HostInfo.Types h) ∧
  prints (HostType.PrintType (HostInfo.Types h)) ∧
  no_host_action (HostInfo.Execute h []).
Proof.
  pose proof (PrintType_prints (HostInfo.Types h)) as Hprints.
  split_and!; [done..|].
  change (HostInfo.Execute h []) with (HostType.PrintType (HostInfo.Types h)).
  destruct Hprints as (t & -> & Ht). intros path argv Hin.
  rewrite Forall_forall in Ht. by apply Ht in Hin.
Qed.
End listings.

(** X2. [ListRepos] prints the keys of the collection and nothing else:
    one line per key, every key once, in ascending order. *)
Theorem ListRepos_sorted_keys (repos : gmap string Repo.t) :
  ∃ keys,
    Repo.ListRepos repos = ((λ key, Stdout (key +:+ newline)) <$> keys, inr tt) ∧
    StronglySorted String.le keys ∧ NoDup keys ∧
    ∀ key, key ∈ keys ↔ is_Some (repos !! key).
Proof.
  exists (sort_Strings (map_to_list repos).*1). split_and!.
  - unfold Repo.ListRepos. induction (sort_Strings _) as [|key keys IH]; [done|].
    cbn [range]. by rewrite IH.
  - apply sort_Strings_sorted.
  - rewrite sort_Strings_perm. apply NoDup_fst_map_to_list.
  - intros key. rewrite sort_Strings_perm, list_elem_of_fmap. split.
    + intros [[k r] [-> Hkr]]. apply elem_of_map_to_list in Hkr. by exists r.
    + intros [r Hr]. exists (key, r). split; [done|]. by apply elem_of_map_to_list.
Qed.

(** ** What the resolution of a document may start *)

Lemma programs_app (t1 t2 : list event) :
  programs (t1 ++ t2) = programs t1 ++ programs t2.
Proof. apply omap_app. Qed.

Lemma programs_prints (m : proc unit) : prints m → programs (trace m) = [].
Proof.
  intros (t & -> & Ht). cbn [trace fst].
  induction Ht as [|e t He _ IH]; [done|]. by destruct e.
Qed.

(** Default selection fails on an empty host list and picks a host of the
    list otherwise. *)
Lemma PrimaryHost_cases (c : Category.t) :
  (Category.Hosts c = [] ∧ Category.PrimaryHost c = raise (IndexOutOfRange 0 0)) ∨
  (∃ host, host ∈ Category.Hosts c ∧ Category.PrimaryHost c = mret (addr host)).
Proof.
  unfold Category.PrimaryHost.
  destruct (Category.first_primary (Category.Hosts c)) as [host|] eqn:Hfirst.
  - right. exists host. split; [|done].
    apply first_primary_Some in Hfirst as (i & Hi & _). by eapply list_elem_of_lookup_2.
  - destruct (Category.Hosts c) as [|host rest]; [by left|].
    right. exists host. split; [left|done].
Qed.

Section contacts.
Context `{Terminal}.

Lemma Host_Execute_programs (host : Host.t) (extra : list string) :
  programs (trace (Host.Execute (addr host) extra)) =
  [(LookPath "ssh", [LookPath "ssh"; Host.FQDN host; "-A"; "-t"] ++ extra)].
Proof.
  unfold Host.Execute. cbn [deref addr]. rewrite proc_left_id.
  by destruct (cmd_Run _ _).
Qed.

(** X3. Whatever the tokens, the resolution of a document starts at most
    one program, and the one it starts is [ssh] towards a host of the
    category that the first token names, with the fixed options and one
    empty extra argument. *)
Theorem Execute_contacts_a_host_of_the_category (h : HostInfo.t) (args : list string) :
  programs (trace (HostInfo.Execute h args)) = [] ∨
  ∃ t cat host,
    head args = Some t ∧ (length args ≤ 2)%nat ∧
    HostInfo.Types h !! t = Some cat ∧ host ∈ Category.Hosts cat ∧
    programs (trace (HostInfo.Execute h args)) =
      [(LookPath "ssh", [LookPath "ssh"; Host.FQDN host; "-A"; "-t"; ""])].
Proof.
  destruct args as [|t [|tok [|tok' args]]].
  - left. apply programs_prints. apply PrintType_prints.
  - destruct (HostInfo.Types h !! t) as [cat|] eqn:Ht.
    + rewrite (Execute_one_token _ _ _ Ht).
      destruct (PrimaryHost_cases cat) as [[_ ->]|(host & Hin & ->)]; [by left|].
      right. exists t, cat, host. rewrite proc_left_id, Host_Execute_programs.
      split_and!; [done|simpl; lia|done..].
    + left. by rewrite Execute_unknown by (simpl; lia || done).
  - destruct (HostInfo.Types h !! t) as [cat|] eqn:Ht.
    + rewrite (Execute_two_tokens_known _ _ _ _ Ht).
      destruct (Atoi tok) as [x|]; [|by left].
      destruct (decide (0 ≤ x < Z.of_nat (length (Category.Hosts cat)))) as [Hx|Hx].
      * destruct (index_in_range _ _ Hx) as (host & Hhost & ->).
        right. exists t, cat, host. rewrite proc_left_id, Host_Execute_programs.
        split_and!; [done|simpl; lia|done| |done].
        by eapply list_elem_of_lookup_2.
      * left. by rewrite index_out_of_range.
    + left. by rewrite Execute_unknown by (simpl; lia || done).
  - by left.
Qed.
End contacts.

(** ** The command tree of a document *)

Section commands.
Context `{Terminal}.

(** X4. [MakeCLI] yields one command per category, in ascending order of
    the names: it carries the summary of its category, one sub-command per
    host in declaration order, named after the FQDN, and its action does
    what the resolution of the category name alone does, whatever its
    arguments. *)
Theorem MakeCLI_mirrors_the_document (h : HostInfo.t) :
  cli.Name <$> HostInfo.MakeCLI h = HostType.List (HostInfo.Types h) ∧
  ∀ cmd, cmd ∈ HostInfo.MakeCLI h →
    ∃ cat,
      HostInfo.Types h !! cli.Name cmd = Some cat ∧
      cli.Usage cmd = Category.Summary cat ∧
      cli.Name <$> cli.Subcommands cmd = Host.FQDN <$> Category.Hosts cat ∧
      cli.Usage <$> cli.Subcommands cmd = Host.Summary <$> Category.Hosts cat ∧
      ∀ args, cli.Action cmd args = HostInfo.Execute h [cli.Name cmd].
Proof.
  unfold HostInfo.MakeCLI. split.
  - induction (HostType.List _) as [|key keys IH]; [done|]. cbn. by rewrite IH.
  - intros cmd (key & -> & Hkey)%list_elem_of_fmap.
    apply List_elem_of in Hkey as [cat Hcat].
    exists cat. unfold HostInfo.category_command. rewrite Hcat.
    cbn [cli.Name cli.Usage cli.Subcommands cli.Action default].
    split_and!; [done..| | |].
    + rewrite <- list_fmap_compose. by apply list_fmap_ext.
    + rewrite <- list_fmap_compose. by apply list_fmap_ext.
    + intros args. by rewrite (Execute_one_token _ _ _ Hcat).
Qed.

(** X5. The action of a host command does not depend on the host it is
    named after. Without arguments it opens the default host of the
    category, as the category command does; with arguments it opens the
    first host of the category whose FQDN is the first argument, and when
    the category has no such host it dereferences the nil pointer of
    [GetHost] before any program is started. *)
Theorem host_command_action (cat : Category.t) (host : Host.t) :
  cli.Action (HostInfo.host_command cat host) [] =
    (Category.PrimaryHost cat ≫= λ host, Host.Execute host [""]) ∧
  (∀ arg rest target,
     Category.first_named arg (Category.Hosts cat) = Some target →
     cli.Action (HostInfo.host_command cat host) (arg :: rest) =
       Host.Execute (addr target) [""]) ∧
  (∀ arg rest,
     (∀ other, other ∈ Category.Hosts cat → Host.FQDN other ≠ arg) →
     cli.Action (HostInfo.host_command cat host) (arg :: rest) = raise NilDereference).
Proof.
  unfold HostInfo.host_command. cbn [cli.Action]. split_and!; [done| |].
  - intros arg rest target Hfound. unfold Category.GetHost.
    by rewrite proc_left_id, Hfound.
  - intros arg rest Hnone. unfold Category.GetHost.
    assert (Category.first_named arg (Category.Hosts cat) = None) as ->.
    { rewrite first_named_find. apply find_first_None, Forall_forall.
      intros other Hin. apply String.eqb_neq. by apply Hnone. }
    by rewrite proc_left_id.
Qed.
End commands.

(** ** Ranging over the categories *)

Lemma foldl_snoc_app {A B} (f : A → B) (acc : list B) (l : list A) :
  foldl (λ acc a, acc ++ [f a]) acc l = acc ++ (f <$> l).
Proof.
  revert acc. induction l as [|a l IH]; intros acc; simpl; [by rewrite app_nil_r|].
  by rewrite IH, <- app_assoc.
Qed.

Lemma Hosts_concat (order : list (string * Category.t)) :
  HostType.Hosts order = mjoin ((λ entry, Category.Hosts entry.2) <$> order).
Proof.
  unfold HostType.Hosts.
  assert (∀ acc, foldl (λ hosts entry,
                    foldl (λ hosts host, hosts ++ [host]) hosts (Category.Hosts entry.2))
                  acc order
                 = acc ++ mjoin ((λ entry, Category.Hosts entry.2) <$> order)) as Hfold.
  { induction order as [|entry order IH]; intros acc; simpl; [by rewrite app_nil_r|].
    rewrite IH. rewrite (foldl_snoc_app id), list_fmap_id. by rewrite app_assoc. }
  apply (Hfold []).
Qed.

(** X6. Whatever the order in which the categories are ranged over,
    [HostType.Hosts] holds the hosts of every category, each as often as it
    is declared: two orders give arrangements of one another, a host is
    listed exactly when a category declares it, and [getHosts] lists the
    FQDN of each host of [Hosts] in the same order. *)
Theorem Hosts_collects_every_category (h : HostType.t)
    (order order' : list (string * Category.t)) :
  HostType.range_order h order → HostType.range_order h order' →
  HostType.Hosts order ≡ₚ HostType.Hosts order' ∧
  (∀ host, host ∈ HostType.Hosts order ↔
           ∃ name cat, h !! name = Some cat ∧ host ∈ Category.Hosts cat) ∧
  HostInfo.getHosts order = Host.FQDN <$> HostType.Hosts order.
Proof.
  unfold HostType.range_order. intros Horder Horder'. split_and!.
  - rewrite !Hosts_concat. by rewrite Horder, Horder'.
  - intros host. rewrite Hosts_concat, Horder. rewrite list_elem_of_join. split.
    + intros (hosts & Hin & (entry & -> & Hentry)%list_elem_of_fmap).
      destruct entry as [name cat]. apply elem_of_map_to_list in Hentry. by exists name, cat.
    + intros (name & cat & Hcat & Hin). exists (Category.Hosts cat). split; [done|].
      apply list_elem_of_fmap. exists (name, cat). split; [done|].
      by apply elem_of_map_to_list.
  - unfold HostInfo.getHosts. by rewrite (foldl_snoc_app Host.FQDN).
Qed.

Lemma PrimaryHost_order_none (order : list (string * Category.t)) :
  Forall (λ entry, Category.Primary entry.2 = false) order →
  HostType.PrimaryHost order = mret nil.
Proof.
  induction 1 as [|[name cat] order Hcat _ IH]; [done|].
  cbn [HostType.PrimaryHost]. cbn in Hcat. by rewrite Hcat.
Qed.

Lemma PrimaryHost_order_unique (order : list (string * Category.t))
    (name : string) (cat : Category.t) :
  (name, cat) ∈ order →
  Category.Primary cat = true →
  (∀ entry, entry ∈ order → Category.Primary entry.2 = true → entry.2 = cat) →
  HostType.PrimaryHost order = Category.PrimaryHost cat.
Proof.
  intros Hin Hprimary Honly. induction order as [|[name' cat'] order IH].
  { by apply elem_of_nil in Hin. }
  cbn [HostType.PrimaryHost]. destruct (Category.Primary cat') eqn:Hcat'.
  - assert (cat' = cat) as ->; [|done].
    apply (Honly (name', cat')); [left|done].
  - apply IH.
    + apply elem_of_cons in Hin as [[= -> ->]|Hin]; [congruence|done].
    + intros entry Hentry. apply Honly. by right.
Qed.

(** X7. Whatever the order in which the categories are ranged over,
    [HostType.PrimaryHost] hands back nil when no category carries the
    primary flag, and the default host of the category that carries it
    when there is exactly one. *)
Theorem HostType_PrimaryHost_of_the_primary_category (h : HostType.t)
    (order : list (string * Category.t)) :
  HostType.range_order h order →
  ((∀ name cat, h !! name = Some cat → Category.Primary cat = false) →
   HostType.PrimaryHost order = mret nil) ∧
  (∀ name cat,
     h !! name = Some cat → Category.Primary cat = true →
     (∀ name' cat', h !! name' = Some cat' → Category.Primary cat' = true → name' = name) →
     HostType.PrimaryHost order = Category.PrimaryHost cat).
Proof.
  unfold HostType.range_order. intros Horder.
  assert (∀ name cat, (name, cat) ∈ order ↔ h !! name = Some cat) as Hin.
  { intros name cat. rewrite Horder. apply elem_of_map_to_list. }
  split.
  - intros Hnone. apply PrimaryHost_order_none, Forall_forall.
    intros [name cat] Hentry. apply (Hnone name). by apply Hin.
  - intros name cat Hcat Hprimary Honly.
    apply (PrimaryHost_order_unique order name); [by apply Hin|done|].
    intros [name' cat'] Hentry Hprimary'. apply Hin in Hentry. cbn in *.
    assert (name' = name) as -> by eauto. congruence.
Qed.

(** ** The nodes that the loader builds *)

Lemma trace_bind_Forall {A B} (P : event → Prop) (m : proc A) (f : A → proc B) :
  Forall P (trace m) → (∀ a, Forall P (trace (f a))) → Forall P (trace (m ≫= f)).
Proof.
  intros Hm Hf. rewrite trace_bind. apply Forall_app. split; [done|].
  destruct (outcome m) as [h|a]; [constructor|apply Hf].
Qed.

Lemma Repo_walk_loading (root path : string) (info : ptr FileInfo) (err : error) :
  Forall is_loading (trace (Repo.walk root path info err)).
Proof.
  unfold Repo.walk. destruct err as [e|]; [by repeat constructor|].
  destruct (HasPrefix (Base path) "."); [constructor|].
  destruct info as [info|]; [|constructor]. cbn [deref]. rewrite proc_left_id.
  destruct (IsDir info && Repo.isSubrepo root path); [by repeat constructor|].
  destruct (HasSuffix path ".yaml"); by repeat constructor.
Qed.

Lemma walk_names_loading (root : string) (rec : string → fsnode → proc error)
    (path : string) (names : list fsnode) :
  Forall (λ entry, ∀ path, Forall is_loading (trace (rec path entry))) names →
  Forall is_loading (trace (walk_names (Repo.walk root) rec path names)).
Proof.
  induction 1 as [|entry names Hentry _ IH]; [constructor|].
  cbn [walk_names]. destruct entry as [name|name entries|name text].
  - apply trace_bind_Forall; [apply Hentry|]. intros [e|]; [|done].
    destruct (negb _ || negb _); [constructor|done].
  - apply trace_bind_Forall; [apply Hentry|]. intros [e|]; [|done].
    destruct (negb _ || negb _); [constructor|done].
  - apply trace_bind_Forall; [apply Repo_walk_loading|].
    intros [[|text']|]; first [done|constructor].
Qed.

Lemma walk_loading (root : string) (info : fsnode) :
  ∀ path, Forall is_loading (trace (walk (Repo.walk root) path info)).
Proof.
  induction info as [name|name text|name names IH|name text] using fsnode_nested_ind;
    intros path; cbn [walk]; try apply Repo_walk_loading.
  - apply trace_bind_Forall; [apply Repo_walk_loading|]. intros err1. constructor.
  - apply trace_bind_Forall; [apply Repo_walk_loading|]. intros [e|]; [constructor|].
    by apply walk_names_loading.
Qed.

Lemma Walk_loading (root : string) (info : fsnode) :
  Forall is_loading (trace (Walk (Repo.walk root) root info)).
Proof.
  unfold Walk. apply trace_bind_Forall.
  - destruct info; first [apply walk_loading|apply Repo_walk_loading].
  - intros [[|text]|]; constructor.
Qed.

Lemma well_keyed_empty (key root : string) : well_keyed (Repo.mk key ∅ ∅ ∅ root).
Proof. constructor; cbn; intros k x Hk; by rewrite lookup_empty in Hk. Qed.

Section built.
Context `{Documents}.

(** An invariant of the node that every goroutine keeps is kept by
    [r.wg.Wait()]. *)
Lemma wait_invariant (I : Repo.t → Prop) (built : list (string * proc Repo.t))
    (gs : list goroutine) :
  (∀ r path t r', I r → Repo.loadInfo r path = (t, inr r') → I r') →
  (∀ r path t r', I r → Repo.loadSubrepo built r path = (t, inr r') → I r') →
  ∀ r t r', I r → Repo.wait built gs r = (t, inr r') → I r'.
Proof.
  intros Hinfo Hsub. induction gs as [|[path|path] gs IH]; intros r t r' Hr; cbn [Repo.wait].
  - by intros [= _ <-].
  - destruct (Repo.loadInfo r path) as [t1 [h|r1]] eqn:Hload; [done|].
    unfold mbind, proc_bind. destruct (Repo.wait built gs r1) as [t2 res] eqn:Hwait.
    intros [= _ ->]. eapply IH; [|exact Hwait]. by eapply Hinfo.
  - destruct (Repo.loadSubrepo built r path) as [t1 [h|r1]] eqn:Hload; [done|].
    unfold mbind, proc_bind. destruct (Repo.wait built gs r1) as [t2 res] eqn:Hwait.
    intros [= _ ->]. eapply IH; [|exact Hwait]. by eapply Hsub.
Qed.

Lemma loadInfo_result (r : Repo.t) (path : string) :
  ∃ t, Forall is_loading t ∧
       Repo.loadInfo r path =
       (t, inr (if HasPrefix (asKey path) "_"
                then Repo.mk (Repo.Key r) (Repo.Info r)
                       (<[Info.ID (LoadInfo path).1 := (LoadInfo path).1]> (Repo.Control r))
                       (Repo.Subrepos r) (Repo.root r)
                else Repo.mk (Repo.Key r)
                       (<[Info.ID (LoadInfo path).1 := (LoadInfo path).1]> (Repo.Info r))
                       (Repo.Control r) (Repo.Subrepos r) (Repo.root r))).
Proof.
  unfold Repo.loadInfo. destruct (LoadInfo path) as [info [e|]]; cbn [fst];
    destruct (HasPrefix (asKey path) "_"); eexists; (split; [|reflexivity]);
    by repeat constructor.
Qed.

Lemma NewRepo_nostat_builds (p text : string) : builds p (Repo.NewRepo_nostat p text).
Proof.
  unfold Repo.NewRepo_nostat. cbn [Repo.root].
  destruct (Walk_returns (getPath p) (NoStat (Base p) text)) as (t & e & Hw).
  exists (t ++ []), (Repo.mk (asKey p) ∅ ∅ ∅ (getPath p)).
  split_and!; [by erewrite proc_bind_returns| |done|done|apply well_keyed_empty].
  rewrite app_nil_r. pose proof (Walk_loading (getPath p) (NoStat (Base p) text)) as Hl.
  by rewrite Hw in Hl.
Qed.

Lemma NewRepo_in_builds (built : list (string * proc Repo.t)) (path : string) :
  Forall (λ b, builds b.1 b.2) built → builds path (Repo.NewRepo_in built path).
Proof.
  induction 1 as [|[q nr] built Hnr _ IH]; cbn [Repo.NewRepo_in].
  - apply NewRepo_nostat_builds.
  - destruct (String.eqb_spec q path) as [<-|]; [exact Hnr|exact IH].
Qed.

Lemma well_keyed_insert_Info (r : Repo.t) (info : Info.t) :
  well_keyed r →
  well_keyed (Repo.mk (Repo.Key r) (<[Info.ID info := info]> (Repo.Info r))
                      (Repo.Control r) (Repo.Subrepos r) (Repo.root r)).
Proof.
  intros [r' Hinfo Hcontrol Hsubkey Hsub].
  constructor; cbn [Repo.Info Repo.Control Repo.Subrepos]; [|assumption..].
  intros key x Hlook. apply lookup_insert_Some in Hlook as [[<- <-]|[_ Hlook]]; [reflexivity|].
  exact (Hinfo key x Hlook).
Qed.

Lemma well_keyed_insert_Control (r : Repo.t) (info : Info.t) :
  well_keyed r →
  well_keyed (Repo.mk (Repo.Key r) (Repo.Info r)
                      (<[Info.ID info := info]> (Repo.Control r))
                      (Repo.Subrepos r) (Repo.root r)).
Proof.
  intros [r' Hinfo Hcontrol Hsubkey Hsub].
  constructor; cbn [Repo.Info Repo.Control Repo.Subrepos]; [assumption| |assumption..].
  intros key x Hlook. apply lookup_insert_Some in Hlook as [[<- <-]|[_ Hlook]]; [reflexivity|].
  exact (Hcontrol key x Hlook).
Qed.

Lemma well_keyed_insert_Subrepo (r nr : Repo.t) :
  well_keyed r → well_keyed nr →
  well_keyed (Repo.mk (Repo.Key r) (Repo.Info r) (Repo.Control r)
                      (<[Repo.Key nr := nr]> (Repo.Subrepos r)) (Repo.root r)).
Proof.
  intros [r' Hinfo Hcontrol Hsubkey Hsub] Hnr.
  constructor; cbn [Repo.Info Repo.Control Repo.Subrepos]; [assumption..| |].
  - intros key x Hlook.
    apply lookup_insert_Some in Hlook as [[<- <-]|[_ Hlook]]; [reflexivity|].
    exact (Hsubkey key x Hlook).
  - intros key x Hlook.
    apply lookup_insert_Some in Hlook as [[<- <-]|[_ Hlook]]; [exact Hnr|].
    exact (Hsub key x Hlook).
Qed.

Lemma wait_builds (built : list (string * proc Repo.t)) (gs : list goroutine) :
  Forall (λ b, builds b.1 b.2) built →
  ∀ r, well_keyed r →
       ∃ t r', Repo.wait built gs r = (t, inr r') ∧ Forall is_loading t ∧
               Repo.Key r' = Repo.Key r ∧ Repo.root r' = Repo.root r ∧ well_keyed r'.
Proof.
  intros Hbuilt. induction gs as [|[path|path] gs IH]; intros r Hr; cbn [Repo.wait].
  - exists [], r. split_and!; [reflexivity|constructor|reflexivity|reflexivity|exact Hr].
  - destruct (loadInfo_result r path) as (t & Ht & ->).
    destruct (HasPrefix (asKey path) "_").
    + destruct (IH _ (well_keyed_insert_Control r (LoadInfo path).1 Hr))
        as (t' & r' & Hwait & Ht' & Hkey & Hroot & Hwk).
      exists (t ++ t'), r'.
      split_and!; [by erewrite proc_bind_returns|by apply Forall_app|exact Hkey|exact Hroot|exact Hwk].
    + destruct (IH _ (well_keyed_insert_Info r (LoadInfo path).1 Hr))
        as (t' & r' & Hwait & Ht' & Hkey & Hroot & Hwk).
      exists (t ++ t'), r'.
      split_and!; [by erewrite proc_bind_returns|by apply Forall_app|exact Hkey|exact Hroot|exact Hwk].
  - unfold Repo.loadSubrepo.
    destruct (NewRepo_in_builds built path Hbuilt) as (t & nr & -> & Ht & Hnrkey & _ & Hnr).
    rewrite proc_assoc.
    destruct (IH _ (well_keyed_insert_Subrepo r nr Hr Hnr))
      as (t' & r' & Hwait & Ht' & Hkey & Hroot & Hwk).
    exists (t ++ t'), r'.
    split_and!; [|by apply Forall_app|exact Hkey|exact Hroot|exact Hwk].
    erewrite proc_bind_returns; [reflexivity|reflexivity|].
    rewrite proc_left_id. exact Hwait.
Qed.

Lemma NewRepo_builds (info : fsnode) : ∀ p, builds p (Repo.NewRepo p info).
Proof.
  assert (∀ built p info, Forall (λ b, builds b.1 b.2) built →
                          builds p (Repo.NewRepo_at built p info)) as Hat.
  { intros built p info' Hbuilt. unfold Repo.NewRepo_at. cbn [Repo.root].
    pose proof (Walk_loading (getPath p) info') as Hl.
    destruct (Walk_returns (getPath p) info') as (t & e & Hw). rewrite Hw in Hl |- *.
    destruct (wait_builds built (Repo.started (trace (t, @inr halt error e))) Hbuilt
                (Repo.mk (asKey p) ∅ ∅ ∅ (getPath p))) as (t' & r & Hwait & Ht' & ? & ? & ?);
      [apply well_keyed_empty|].
    exists (t ++ t'), r. split_and!; [by erewrite proc_bind_returns|by apply Forall_app|done..]. }
  induction info as [name|name text|name names IH|name text] using fsnode_nested_ind;
    intros p; rewrite NewRepo_unfold; apply Hat; [done..| |done].
  apply Forall_fmap. eapply Forall_impl; [exact IH|]. intros entry Hentry. apply Hentry.
Qed.

End built.

(** ** Listing and resolving *)

Lemma Keys_of_well_keyed (r : Repo.t) :
  well_keyed r →
  Repo.Keys r = sort_Strings (map_to_list (Repo.Info r)).*1 ∧
  Repo.SubrepoKeys r = sort_Strings (map_to_list (Repo.Subrepos r)).*1.
Proof.
  intros [r' Hinfo _ Hsubkey _]. unfold Repo.Keys, Repo.SubrepoKeys.
  split; f_equal; rewrite <- list_fmap_compose; apply list_fmap_ext.
  - intros i [key info] Hlook. apply list_elem_of_lookup_2, elem_of_map_to_list in Hlook.
    exact (Hinfo key info Hlook).
  - intros i [key sub] Hlook. apply list_elem_of_lookup_2, elem_of_map_to_list in Hlook.
    exact (Hsubkey key sub Hlook).
Qed.

(** X9. On a well keyed node, such as every node that [NewRepo] builds,
    the listing and the resolution agree: the documents listed are the keys
    of the document map, each once and in ascending order, and a listed
    document is resolved by its name, whatever tokens follow it; a listed
    sub-repository that shares its name with no document is entered by its
    name. *)
Theorem listed_names_resolve (r : Repo.t) :
  well_keyed r →
  StronglySorted String.le (Repo.Keys r) ∧ NoDup (Repo.Keys r) ∧
  NoDup (Repo.SubrepoKeys r) ∧
  (∀ key, key ∈ Repo.Keys r ↔ is_Some (Repo.Info r !! key)) ∧
  (∀ key rest, key ∈ Repo.Keys r →
     ∃ info, Repo.descend r (key :: rest) = inl info ∧ Info.ID info = key) ∧
  (∀ key rest, key ∈ Repo.SubrepoKeys r → key ∉ Repo.Keys r →
     ∃ sub, Repo.Subrepos r !! key = Some sub ∧ Repo.Key sub = key ∧
            Repo.descend r (key :: rest) = Repo.descend sub rest).
Proof.
  intros Hr. destruct (Keys_of_well_keyed r Hr) as [Hkeys Hsubkeys].
  assert (∀ key, key ∈ Repo.Keys r ↔ is_Some (Repo.Info r !! key)) as Hlisted.
  { intros key. rewrite Hkeys, sort_Strings_perm, list_elem_of_fmap. split.
    - intros [[k info] [-> Hk]]. apply elem_of_map_to_list in Hk. by exists info.
    - intros [info Hk]. exists (key, info). split; [done|]. by apply elem_of_map_to_list. }
  destruct Hr as [r' Hinfo _ Hsubkey _].
  split_and!.
  - apply sort_Strings_sorted.
  - rewrite Hkeys, sort_Strings_perm. apply NoDup_fst_map_to_list.
  - rewrite Hsubkeys, sort_Strings_perm. apply NoDup_fst_map_to_list.
  - exact Hlisted.
  - intros key rest [info Hk]%Hlisted. exists info.
    split; [by apply descend_document|by apply Hinfo].
  - intros key rest Hsub Hnodoc.
    rewrite Hsubkeys, sort_Strings_perm, list_elem_of_fmap in Hsub.
    destruct Hsub as [[k sub] [-> Hk]]. apply elem_of_map_to_list in Hk. cbn [fst] in *.
    exists sub. split_and!; [done|by apply Hsubkey|].
    apply descend_subrepo; [|done].
    rewrite Hlisted in Hnodoc. by apply eq_None_not_Some.
Qed.

Lemma descend_leads_to (r r' : Repo.t) (keys rest : list string) :
  leads_to r keys r' → Repo.descend r (keys ++ rest) = Repo.descend r' rest.
Proof.
  induction 1 as [r|r sub r' key keys Hinfo Hsub _ IH]; [done|].
  cbn [app]. by rewrite (descend_subrepo _ _ _ _ Hinfo Hsub).
Qed.

Section descent.
Context `{Terminal} `{Documents}.

(** X10. Descent composes: after the token of the repository itself, a
    sequence of sub-repository keys followed by further tokens is resolved
    as the further tokens are at the node the keys lead to. With nothing
    after the keys that node is listed, its sub-repositories first, and
    with the name of one of its documents after them that document is
    executed. *)
Theorem Execute_descends (r r' : Repo.t) (first : string) (keys : list string) :
  leads_to r keys r' →
  (∀ rest other, Repo.Execute r (first :: keys ++ rest) = Repo.Execute r' (other :: rest)) ∧
  Repo.Execute r (first :: keys) =
    (range (Repo.SubrepoKeys r') (λ key, fmt_Println (SprintfFunc [FgBlue; Bold] key)) ;;
     range (Repo.Keys r') (λ key, fmt_Println key)) ∧
  (∀ name info rest, Repo.Info r' !! name = Some info →
     Repo.Execute r (first :: keys ++ name :: rest) = Info_Execute info).
Proof.
  intros Hleads.
  assert (∀ rest other,
            Repo.Execute r (first :: keys ++ rest) = Repo.Execute r' (other :: rest)) as Hcompose.
  { intros rest other. unfold Repo.Execute.
    change (slice_from (first :: keys ++ rest) 1) with (mret (M := proc) (keys ++ rest)).
    change (slice_from (other :: rest) 1) with (mret (M := proc) rest).
    by rewrite !proc_left_id, (descend_leads_to _ _ _ _ Hleads). }
  split_and!; [exact Hcompose| |].
  - rewrite <- (app_nil_r keys), (Hcompose [] first). by apply Execute_listing.
  - intros name info rest Hname. rewrite (Hcompose _ first). unfold Repo.Execute.
    change (slice_from (first :: name :: rest) 1) with (mret (M := proc) (name :: rest)).
    by rewrite proc_left_id, (descend_document _ _ _ _ Hname).
Qed.
End descent.

(** ** Control documents *)

Section control.
Context `{Documents}.

Lemma everywhere_empty (P : Repo.t → Prop) (key root : string) :
  P (Repo.mk key ∅ ∅ ∅ root) → everywhere P (Repo.mk key ∅ ∅ ∅ root).
Proof.
  intros HP. constructor; [exact HP|]. cbn. intros k sub Hk. by rewrite lookup_empty in Hk.
Qed.

Lemma separated_empty (key root : string) : separated (Repo.mk key ∅ ∅ ∅ root).
Proof. split; cbn; intros k [x Hk]; by rewrite lookup_empty in Hk. Qed.

Lemma NewRepo_in_separated (built : list (string * proc Repo.t)) (path : string) :
  Forall (λ b, ∀ t nr, b.2 = (t, inr nr) → everywhere separated nr) built →
  ∀ t nr, Repo.NewRepo_in built path = (t, inr nr) → everywhere separated nr.
Proof.
  induction 1 as [|[q m] built Hm _ IH]; cbn [Repo.NewRepo_in].
  - unfold Repo.NewRepo_nostat. cbn [Repo.root].
    destruct (Walk_returns (getPath path)
                (NoStat (Base path) "no such file or directory")) as (t0 & e & ->).
    intros t nr [= _ <-]. apply everywhere_empty, separated_empty.
  - destruct (String.eqb q path); [exact Hm|exact IH].
Qed.

(** X11. When the loader names every document after its path, the nodes
    that [NewRepo] builds keep the control documents apart at every level
    of the tree: the keys of the control map start with an underscore, the
    keys of the document map do not, so that no control document is among
    the documents that are listed and resolved. *)
Theorem control_documents_are_kept_apart (info : fsnode) (p : string)
    (t : list event) (r : Repo.t) :
  (∀ path, Info.ID (LoadInfo path).1 = asKey path) →
  Repo.NewRepo p info = (t, inr r) →
  everywhere separated r ∧
  ∀ key, key ∈ Repo.Keys r → HasPrefix key "_" = false.
Proof.
  intros Hnamed Hbuilt.
  assert (everywhere separated r) as Hr.
  { revert p t r Hbuilt.
    assert (∀ built p info t r,
              Forall (λ b, ∀ t nr, b.2 = (t, inr nr) → everywhere separated nr) built →
              Repo.NewRepo_at built p info = (t, inr r) → everywhere separated r) as Hat.
    { intros built p info' t r Hbuilt. unfold Repo.NewRepo_at. cbn [Repo.root].
      destruct (Walk_returns (getPath p) info') as (t0 & e & ->).
      unfold mbind at 1, proc_bind at 1.
      destruct (Repo.wait built _ _) as [t1 [h|r1]] eqn:Hwait; [done|].
      intros [= _ <-]. revert Hwait.
      apply (wait_invariant (everywhere separated));
        [| |apply everywhere_empty, separated_empty].
      - intros r0 path t' r' [r0' [Hinfo Hcontrol] Hsub] Hload.
        destruct (loadInfo_result r0' path) as (t'' & _ & Heq).
        rewrite Heq in Hload. injection Hload as _ <-. rewrite Hnamed.
        destruct (HasPrefix (asKey path) "_") eqn:Hprefix;
          (constructor; [split|exact Hsub]); cbn [Repo.Info Repo.Control];
          try assumption.
        + intros key [x [[<- _]|[_ Hx]]%lookup_insert_Some]; [done|]. by apply Hcontrol.
        + intros key [x [[<- _]|[_ Hx]]%lookup_insert_Some]; [done|]. by apply Hinfo.
      - intros r0 path t' r' [r0' Hsep Hsub]. unfold Repo.loadSubrepo.
        destruct (Repo.NewRepo_in built path) as [t1' [h|nr]] eqn:Hnr; [done|].
        unfold mbind, proc_bind, mret, proc_ret. intros [= _ <-].
        constructor; [exact Hsep|]. cbn [Repo.Subrepos].
        intros key sub [[_ <-]|[_ Hk]]%lookup_insert_Some; [|by eapply Hsub].
        by eapply NewRepo_in_separated. }
    induction info as [name|name text|name names IH|name text] using fsnode_nested_ind;
      intros p t r; rewrite NewRepo_unfold; apply Hat; [done..| |done].
    apply Forall_fmap. eapply Forall_impl; [exact IH|]. intros entry Hentry t' nr. apply Hentry. }
  split; [exact Hr|].
  intros key Hkey. destruct Hr as [r' [Hinfo _] _].
  destruct (NewRepo_builds info p) as (t' & r'' & Heq & _ & _ & _ & Hwk).
  rewrite Hbuilt in Heq. injection Heq as _ <-.
  destruct (Keys_of_well_keyed r' Hwk) as [Hkeys _].
  rewrite Hkeys, sort_Strings_perm in Hkey.
  apply list_elem_of_fmap in Hkey as ([k x] & -> & Hx). apply elem_of_map_to_list in Hx.
  apply Hinfo. by exists x.
Qed.
End control.

(** ** Hidden paths *)

(** What holds of every event of the walk function holds of every event of
    the walk. *)
Lemma walk_names_Forall (P : event → Prop) (root : string)
    (rec : string → fsnode → proc error) (path : string) (names : list fsnode) :
  (∀ path info err, Forall P (trace (Repo.walk root path info err))) →
  Forall (λ entry, ∀ path, Forall P (trace (rec path entry))) names →
  Forall P (trace (walk_names (Repo.walk root) rec path names)).
Proof.
  intros Hfn. induction 1 as [|entry names Hentry _ IH]; [constructor|].
  cbn [walk_names]. destruct entry as [name|name entries|name text].
  - apply trace_bind_Forall; [apply Hentry|]. intros [e|]; [|done].
    destruct (negb _ || negb _); [constructor|done].
  - apply trace_bind_Forall; [apply Hentry|]. intros [e|]; [|done].
    destruct (negb _ || negb _); [constructor|done].
  - apply trace_bind_Forall; [apply Hfn|].
    intros [[|text']|]; first [done|constructor].
Qed.

Lemma Walk_Forall (P : event → Prop) (root : string) (info : fsnode) :
  (∀ path info err, Forall P (trace (Repo.walk root path info err))) →
  Forall P (trace (Walk (Repo.walk root) root info)).
Proof.
  intros Hfn.
  assert (∀ info path, Forall P (trace (walk (Repo.walk root) path info))) as Hwalk.
  { clear info. intros info.
    induction info as [name|name text|name names IH|name text] using fsnode_nested_ind;
      intros path; cbn [walk]; try apply Hfn.
    - apply trace_bind_Forall; [apply Hfn|]. intros err1. constructor.
    - apply trace_bind_Forall; [apply Hfn|]. intros [e|]; [constructor|].
      by apply walk_names_Forall. }
  unfold Walk. apply trace_bind_Forall.
  - destruct info; first [apply Hwalk|apply Hfn].
  - intros [[|text]|]; constructor.
Qed.

Lemma Repo_walk_starts_visible (root path : string) (info : ptr FileInfo) (err : error) :
  Forall starts_visible (trace (Repo.walk root path info err)).
Proof.
  unfold Repo.walk. destruct err as [e|]; [by repeat constructor|].
  destruct (HasPrefix (Base path) ".") eqn:Hhidden; [constructor|].
  destruct info as [info|]; [|constructor]. cbn [deref]. rewrite proc_left_id.
  destruct (IsDir info && Repo.isSubrepo root path); [by repeat constructor|].
  destruct (HasSuffix path ".yaml") eqn:Hyaml; by repeat constructor.
Qed.

Lemma started_visible (t : list event) :
  Forall starts_visible t → Forall visible (Repo.started t).
Proof.
  induction 1 as [|e t He _ IH]; [constructor|].
  destruct e; try exact IH. by constructor.
Qed.

Section visible_origins.
Context `{Documents}.

Lemma NewRepo_in_everywhere (P : Repo.t → Prop)
    (built : list (string * proc Repo.t)) (path : string) :
  (∀ key root, P (Repo.mk key ∅ ∅ ∅ root)) →
  Forall (λ b, ∀ t nr, b.2 = (t, inr nr) → everywhere P nr) built →
  ∀ t nr, Repo.NewRepo_in built path = (t, inr nr) → everywhere P nr.
Proof.
  intros Hempty. induction 1 as [|[q m] built Hm _ IH]; cbn [Repo.NewRepo_in].
  - unfold Repo.NewRepo_nostat. cbn [Repo.root].
    destruct (Walk_returns (getPath path)
                (NoStat (Base path) "no such file or directory")) as (t0 & e & ->).
    intros t nr [= _ <-]. apply everywhere_empty, Hempty.
  - destruct (String.eqb q path); [exact Hm|exact IH].
Qed.

Lemma from_visible_paths_empty (key root : string) :
  from_visible_paths (Repo.mk key ∅ ∅ ∅ root).
Proof. split_and!; cbn; intros k x Hk; by rewrite lookup_empty in Hk. Qed.

Lemma wait_from_visible_paths (built : list (string * proc Repo.t))
    (gs : list goroutine) :
  Forall (λ b, builds b.1 b.2) built →
  Forall (λ b, ∀ t nr, b.2 = (t, inr nr) → everywhere from_visible_paths nr) built →
  Forall visible gs →
  ∀ r t r', everywhere from_visible_paths r →
            Repo.wait built gs r = (t, inr r') →
            everywhere from_visible_paths r'.
Proof.
  intros Hbuilds Hbuilt. induction 1 as [|g gs Hg _ IH]; intros r t r' Hr; cbn [Repo.wait].
  { by intros [= _ <-]. }
  destruct g as [path|path].
  - destruct (loadInfo_result r path) as (t1 & _ & ->).
    unfold mbind, proc_bind. destruct (Repo.wait built gs _) as [t2 res] eqn:Hwait.
    intros [= _ ->]. eapply IH; [|exact Hwait].
    destruct Hr as [r0 (Hsubs & Hinfo & Hcontrol) Hbelow].
    destruct (HasPrefix (asKey path) "_") eqn:Hprefix;
      (constructor; [split_and!|exact Hbelow]); cbn [Repo.Info Repo.Control Repo.Subrepos];
      try assumption.
    + intros key info [[_ <-]|[_ Hk]]%lookup_insert_Some; [by exists path|by eapply Hcontrol].
    + intros key info [[_ <-]|[_ Hk]]%lookup_insert_Some; [by exists path|by eapply Hinfo].
  - unfold Repo.loadSubrepo.
    destruct (NewRepo_in_builds built path Hbuilds) as (t1 & nr & Hnr & _ & Hkey & Hroot & _).
    rewrite Hnr. unfold mbind, proc_bind, mret, proc_ret. cbv beta iota.
    destruct (Repo.wait built gs _) as [t2 res] eqn:Hwait.
    intros [= _ ->]. eapply IH; [|exact Hwait].
    destruct Hr as [r0 (Hsubs & Hinfo & Hcontrol) Hbelow].
    constructor; [split_and!|]; cbn [Repo.Info Repo.Control Repo.Subrepos]; try assumption.
    + intros key sub [[<- <-]|[_ Hk]]%lookup_insert_Some; [|by eapply Hsubs].
      rewrite Hroot. by split.
    + intros key sub [[_ <-]|[_ Hk]]%lookup_insert_Some; [|by eapply Hbelow].
      eapply NewRepo_in_everywhere; [apply from_visible_paths_empty|exact Hbuilt|exact Hnr].
Qed.

(** X12. Hidden paths never enter a node, whatever the file system holds:
    at every level of the tree that [NewRepo] builds, each sub-repository
    is rooted at a path whose base name does not start with a dot and is
    stored under the key of that path, and each document and control
    document was loaded from such a path ending in [.yaml], the control
    documents being those whose key starts with an underscore. *)
Theorem hidden_paths_never_enter (info : fsnode) (p : string)
    (t : list event) (r : Repo.t) :
  Repo.NewRepo p info = (t, inr r) → everywhere from_visible_paths r.
Proof.
  revert p t r.
  assert (∀ built p info t r,
            Forall (λ b, builds b.1 b.2) built →
            Forall (λ b, ∀ t nr, b.2 = (t, inr nr) → everywhere from_visible_paths nr) built →
            Repo.NewRepo_at built p info = (t, inr r) →
            everywhere from_visible_paths r) as Hat.
  { intros built p info' t r Hbuilds Hbuilt. unfold Repo.NewRepo_at. cbn [Repo.root].
    pose proof (Walk_Forall starts_visible (getPath p) info'
                  (Repo_walk_starts_visible (getPath p))) as Hvisible.
    apply started_visible in Hvisible.
    destruct (Walk_returns (getPath p) info') as (t0 & e & Hw). rewrite Hw in Hvisible |- *.
    unfold mbind at 1, proc_bind at 1.
    destruct (Repo.wait built _ _) as [t1 [h|r1]] eqn:Hwait; [done|].
    intros [= _ <-].
    eapply (wait_from_visible_paths built _ Hbuilds Hbuilt Hvisible); [|exact Hwait].
    apply everywhere_empty, from_visible_paths_empty. }
  induction info as [name|name text|name names IH|name text] using fsnode_nested_ind;
    intros p t r; rewrite NewRepo_unfold; apply Hat; try done.
  - apply Forall_fmap, Forall_forall. intros entry _. apply NewRepo_builds.
  - apply Forall_fmap. eapply Forall_impl; [exact IH|]. intros entry Hentry t' nr. apply Hentry.
Qed.
End visible_origins.

(** ** One loader per entry of the root *)




(** ** Every visible entry is filed *)



Section filing.
Context `{Documents}.





End filing.

Section every_entry.
Context `{Documents}.


End every_entry.

(** ** The collection of repositories *)

Section collection.
Context `{Documents} `{Markers}.



End collection.

(** ** A hidden root *)

Section hidden_root.
Context `{Documents}.

(** X16. A root whose base name starts with a dot is skipped as a whole,
    marker or not: when the root is a regular file or a readable directory,
    [NewRepo] starts no loader, logs nothing and hands back the node of the
    path with empty maps, whatever the directory holds. *)
Theorem NewRepo_at_a_hidden_root (p : string) (info : fsnode) :
  HasPrefix (Base (getPath p)) "." = true →
  (∃ name, info = File name) ∨ (∃ name names, info = Dir name (inr names)) →
  Repo.NewRepo p info = ([], inr (Repo.mk (asKey p) ∅ ∅ ∅ (getPath p))).
Proof.
  intros Hhidden Hkind. rewrite NewRepo_unfold. unfold Repo.NewRepo_at. cbn [Repo.root].
  assert (Walk (Repo.walk (getPath p)) (getPath p) info = ([], inr None)) as ->; [|done].
  unfold Walk. destruct Hkind as [[name ->]|(name & names & ->)]; cbn [walk];
    by rewrite Repo_walk_hidden.
Qed.
End hidden_root.

(** ** The further properties on the sample inventory *)

Lemma Hosts_collects_every_category_witness :
  HostInfo.getHosts (map_to_list Sample.types) =
  Host.FQDN <$> HostType.Hosts (map_to_list Sample.types).
Proof.
  assert (HostType.range_order Sample.types (map_to_list Sample.types)) as Horder.
  { unfold HostType.range_order. reflexivity. }
  exact (proj2 (proj2 (Hosts_collects_every_category Sample.types _ _ Horder Horder))).
Defined.

Lemma HostType_PrimaryHost_of_the_primary_category_witness :
  HostType.PrimaryHost (map_to_list Sample.types) = Category.PrimaryHost Sample.master.
Proof.
  assert (HostType.range_order Sample.types (map_to_list Sample.types)) as Horder.
  { unfold HostType.range_order. reflexivity. }
  apply (proj2 (HostType_PrimaryHost_of_the_primary_category Sample.types _ Horder)
               "master" Sample.master); [reflexivity..|].
  intros name' cat' Hlook Hprimary. unfold Sample.types in Hlook.
  repeat (apply lookup_insert_Some in Hlook as [[<- <-]|[_ Hlook]];
          [first [reflexivity|discriminate Hprimary]|]).
  rewrite lookup_empty in Hlook. discriminate Hlook.
Defined.

Lemma well_keyed_infra : well_keyed Sample.infra.
Proof.
  constructor; cbn [Repo.Info Repo.Control Repo.Subrepos Sample.infra].
  - intros key info [<- <-]%lookup_singleton_Some. reflexivity.
  - intros key info Hkey. rewrite lookup_empty in Hkey. discriminate Hkey.
  - intros key sub [<- <-]%lookup_singleton_Some. reflexivity.
  - intros key sub [<- <-]%lookup_singleton_Some.
    constructor; cbn [Repo.Info Repo.Control Repo.Subrepos Sample.cluster6].
    + intros key info [<- <-]%lookup_singleton_Some. reflexivity.
    + intros key info Hkey. rewrite lookup_empty in Hkey. discriminate Hkey.
    + intros key sub Hkey. rewrite lookup_empty in Hkey. discriminate Hkey.
    + intros key sub Hkey. rewrite lookup_empty in Hkey. discriminate Hkey.
Defined.

Lemma listed_names_resolve_witness :
  ∃ info, Repo.descend Sample.infra ["db"; "ro"] = inl info ∧ Info.ID info = "db".
Proof.
  destruct (listed_names_resolve Sample.infra well_keyed_infra)
    as (_ & _ & _ & _ & Hdocument & _).
  apply Hdocument. vm_compute. left.
Defined.

Lemma Execute_descends_witness :
  @Repo.Execute Sample.plain Sample.loader Sample.infra ["infra"; "cluster6"; "cache"; "ro"] =
  @Info_Execute Sample.loader
    (Info.mk "cache" "host" "" "infra/cluster6/cache.yaml" ∅).
Proof.
  assert (leads_to Sample.infra ["cluster6"] Sample.cluster6) as Hleads.
  { eapply leads_to_below; [reflexivity|reflexivity|apply leads_to_here]. }
  destruct (@Execute_descends Sample.plain Sample.loader _ _ "infra" _ Hleads)
    as (_ & _ & Hdocument).
  apply (Hdocument "cache" _ ["ro"]). reflexivity.
Defined.

Lemma control_documents_are_kept_apart_witness :
  ∃ t r, @Repo.NewRepo Sample.named_loader "infra" Sample.with_hidden_directory = (t, inr r) ∧
         everywhere separated r ∧
         ∀ key, key ∈ Repo.Keys r → HasPrefix key "_" = false.
Proof.
  destruct (@NewRepo_builds Sample.named_loader Sample.with_hidden_directory "infra")
    as (t & r & Hbuilt & _).
  exists t, r. split; [exact Hbuilt|].
  apply (@control_documents_are_kept_apart Sample.named_loader
           Sample.with_hidden_directory "infra" t r); [|exact Hbuilt].
  intros path. reflexivity.
Defined.

Lemma hidden_paths_never_enter_witness :
  ∃ t r, @Repo.NewRepo Sample.loader "infra" Sample.with_hidden_directory = (t, inr r) ∧
         everywhere (@from_visible_paths Sample.loader) r.
Proof.
  destruct (@NewRepo_builds Sample.loader Sample.with_hidden_directory "infra")
    as (t & r & Hbuilt & _).
  exists t, r. split; [exact Hbuilt|].
  exact (@hidden_paths_never_enter Sample.loader Sample.with_hidden_directory "infra" t r
           Hbuilt).
Defined.




Lemma NewRepo_at_a_hidden_root_witness :
  @Repo.NewRepo Sample.loader "repos/.git" (Dir ".git" (inr [Sample.marker; File "db.yaml"])) =
  ([], inr (Repo.mk ".git" ∅ ∅ ∅ "repos/.git")).
Proof.
  apply (@NewRepo_at_a_hidden_root Sample.loader "repos/.git"); [reflexivity|].
  right. by do 2 eexists.
Defined.

(** ** The order in which the goroutines run *)


Section schedule.
Context `{Documents}.



End schedule.

